(** * ATPL quiz: the question-bank parser and the session engine of App.tsx

    A shallow embedding of [parseQuestions] and of the state handled by the
    [App] component ([pickNextQuestionId], [handleAnswer], [handleNext],
    [handleReset], the start button and the effects that follow a render),
    with the properties of the specification stated over it. *)

From Stdlib Require Import ZArith NArith Ascii String DecimalString.
From stdpp Require Import gmap list.

Local Open Scope Z_scope.

(** ** JavaScript strings

    A JavaScript string is a sequence of UTF-16 code units. *)

Abbreviation jsstring := (list N).

Definition units (s : string) : jsstring :=
  map N_of_ascii (list_ascii_of_string s).

Definition LF : N := 10%N.
Definition CR : N := 13%N.

(** WhiteSpace and LineTerminator code units: what [String.prototype.trim]
    strips and what [\s] matches in a regular expression without the [u]
    flag. *)
Definition is_space (c : N) : bool :=
  ((9 <=? c) && (c <=? 13) || (c =? 32) || (c =? 160) || (c =? 5760)
   || (8192 <=? c) && (c <=? 8202) || (c =? 8232) || (c =? 8233)
   || (c =? 8239) || (c =? 8287) || (c =? 12288) || (c =? 65279))%N.

Definition is_digit (c : N) : bool := ((48 <=? c) && (c <=? 57))%N.

Fixpoint trimStart (s : jsstring) : jsstring :=
  match s with
  | c :: s' => if is_space c then trimStart s' else s
  | [] => []
  end.

Definition trim (s : jsstring) : jsstring :=
  reverse (trimStart (reverse (trimStart s))).

(** [s.length > 0] *)
Definition nonempty (s : jsstring) : bool :=
  match s with [] => false | _ :: _ => true end.

(** ** Regular expressions

    Every pattern of the source is a sequence of single-character atoms,
    each under a greedy quantifier: [\d+], [\s*], [_{35,}], [\.?], [\r?],
    or a plain character (quantifier [{1,1}]). *)

Inductive cclass : Type :=
  | CDigit                (* \d *)
  | CSpace                (* \s *)
  | CLit (c : N).         (* a literal code unit *)

Definition in_class (k : cclass) (c : N) : bool :=
  match k with
  | CDigit => is_digit c
  | CSpace => is_space c
  | CLit d => (c =? d)%N
  end.

Record atom : Type := Atom {
  cls : cclass;
  rmin : nat;             (* least number of repetitions *)
  rmax : option nat       (* greatest number, [None] when unbounded *)
}.

Abbreviation regex := (list atom).

Definition one (k : cclass) : atom := Atom k 1 (Some 1%nat).
Definition star (k : cclass) : atom := Atom k 0 None.
Definition plus (k : cclass) : atom := Atom k 1 None.
Definition opt (k : cclass) : atom := Atom k 0 (Some 1%nat).
Definition atLeast (n : nat) (k : cclass) : atom := Atom k n None.

Definition may_repeat (hi : option nat) : bool :=
  match hi with Some O => false | _ => true end.

Definition dec_max (hi : option nat) : option nat :=
  match hi with Some n => Some (Nat.pred n) | None => None end.

(** The backtracking matcher of ECMAScript restricted to these patterns: an
    atom first takes as many characters as it can and gives them back one by
    one while the rest of the pattern fails.  [taken] holds the characters
    the atom has consumed, last first; the continuation receives them in
    order, with the input that is left. *)
Fixpoint match_atom {R} (k : cclass) (lo : nat) (hi : option nat)
    (s : jsstring) (taken : jsstring)
    (cont : jsstring -> jsstring -> option R) : option R :=
  let stop := match lo with O => cont (reverse taken) s | S _ => None end in
  match s with
  | c :: s' =>
      if in_class k c && may_repeat hi then
        match match_atom k (Nat.pred lo) (dec_max hi) s' (c :: taken) cont with
        | Some r => Some r
        | None => stop
        end
      else stop
  | [] => stop
  end.

(** Matching a pattern at the start of [s]: the text each atom matched, and
    the input after the match. *)
Fixpoint match_re (re : regex) (s : jsstring)
    : option (list jsstring * jsstring) :=
  match re with
  | [] => Some ([], s)
  | a :: re' =>
      match_atom (cls a) (rmin a) (rmax a) s []
        (fun seg rest =>
           match match_re re' rest with
           | Some (segs, r) => Some (seg :: segs, r)
           | None => None
           end)
  end.

(** [re.test(s)] for a pattern that starts with [^] (and has no [m] flag):
    a match can only start at index 0. *)
Definition test (re : regex) (s : jsstring) : bool :=
  match match_re re s with Some _ => true | None => false end.

(** [s.replace(re, '')] for a pattern that starts with [^], without the [g]
    flag: the match, if any, is removed from the front. *)
Definition replace_empty (re : regex) (s : jsstring) : jsstring :=
  match match_re re s with Some (_, rest) => rest | None => s end.

(** [s.split(re)] (RegExp.prototype[@@split], no limit, no capture group).
    The pattern is tried at every index [q] in turn; on a match that ends at
    [e], the piece collected so far is emitted and the search resumes at [e].
    [skip] counts the characters of the current match still to be passed
    over, [cur] is the piece being collected, last character first.  An
    empty match at the start of a piece is ignored, as the standard says
    (e = p). *)
Fixpoint split_go (re : regex) (s : jsstring) (skip : nat) (cur : jsstring)
    : list jsstring :=
  match s with
  | [] => [reverse cur]
  | c :: s' =>
      match skip with
      | S k => split_go re s' k cur
      | O =>
          match match_re re s with
          | Some (segs, _) =>
              match length (concat segs) with
              | S k => reverse cur :: split_go re s' k []
              | O =>
                  match cur with
                  | [] => split_go re s' O [c]
                  | _ :: _ => reverse cur :: split_go re s' O [c]
                  end
              end
          | None => split_go re s' O (c :: cur)
          end
      end
  end.

Definition split (re : regex) (s : jsstring) : list jsstring :=
  match s with
  | [] => if test re [] then [] else [[]]
  | _ :: _ => split_go re s O []
  end.

(** The patterns of [parseQuestions]. *)

(** [/\n\s*_{35,}\s*\n/g] *)
Definition re_separator : regex :=
  [one (CLit LF); star CSpace; atLeast 35 (CLit 95%N); star CSpace;
   one (CLit LF)].

(** [/\r?\n/] *)
Definition re_newline : regex := [opt (CLit CR); one (CLit LF)].

(** [/^\d+\s*\./] and [/^(\d+)\s*\./]: the text of the first atom is the
    capture group. *)
Definition re_question : regex := [plus CDigit; star CSpace; one (CLit 46%N)].

(** [/^(\d+)\s*\.?\s*/] *)
Definition re_prefix : regex :=
  [plus CDigit; star CSpace; opt (CLit 46%N); star CSpace].

(** [/^\*\s*/] *)
Definition re_marker : regex := [one (CLit 42%N); star CSpace].

(** ** Numbers

    [Number(idMatch[1])] on a non-empty run of decimal digits: the integer
    the digits denote, rounded to the nearest double (ties to even), or
    Infinity when it is too large.  (For more than 20 significant digits the
    standard also allows a neighbouring double.) *)

Inductive number : Type :=
  | Fin (n : N)
  | Infinity.

Global Instance number_eq_dec : EqDecision number.
Proof. solve_decision. Defined.

Global Instance number_countable : Countable number.
Proof.
  refine (inj_countable'
    (fun x => match x with Fin n => Some n | Infinity => None end)
    (fun o => match o with Some n => Fin n | None => Infinity end) _).
  intros []; reflexivity.
Defined.

Definition digits_value (ds : jsstring) : N :=
  fold_left (fun acc c => (10 * acc + (c - 48))%N) ds 0%N.

Definition round_double (n : N) : number :=
  if (n <? 2 ^ 53)%N then Fin n
  else
    let k := (N.log2 n - 52)%N in
    let q := N.shiftr n k in
    let r := N.land n (N.ones k) in
    let half := N.shiftl 1 (k - 1) in
    let q' := if (half <? r)%N || ((r =? half)%N && N.odd q)
              then (q + 1)%N else q in
    let v := N.shiftl q' k in
    if (v <? 2 ^ 1024)%N then Fin v else Infinity.

Definition Number (ds : jsstring) : number := round_double (digits_value ds).

(** The counters of the session are numbers that hold integers.  An integer
    [z] is stored as the nearest double, ties to even, with the sign kept;
    a sum of a finite double and 1 never overflows. *)
Definition round_Z (z : Z) : Z :=
  match z with
  | Z0 => 0
  | Zpos p =>
      match round_double (Npos p) with
      | Fin n => Z.of_N n
      | Infinity => z
      end
  | Zneg p =>
      match round_double (Npos p) with
      | Fin n => - Z.of_N n
      | Infinity => z
      end
  end.

(** [x + y] on numbers that hold integers: [x] when [y] is 0, else the
    integer sum as the double that holds it.  Up to 2^53 in magnitude this
    is the integer sum; at 2^53 adding 1 gives 2^53 again. *)
Definition js_add (x y : Z) : Z :=
  if y =? 0 then x else round_Z (x + y).

Global Arguments js_add : simpl never.

(** ** Data structures *)

Record AnswerOption : Type := mkOption {
  opt_id : nat;
  opt_text : jsstring;
  isCorrect : bool
}.

Record Question : Type := mkQuestion {
  q_id : number;
  q_text : jsstring;
  options : list AnswerOption
}.

(** ** parseQuestions *)

(** [block.split(/\r?\n/).map(l => l.trim()).filter(l => l.length > 0)] *)
Definition block_lines (block : jsstring) : list jsstring :=
  filter (fun l => nonempty l) (map trim (split re_newline block)).

(** The [while] loop that looks for the question line, from index [i]; it
    runs at most [fuel] more times. *)
Fixpoint scan_question (lines : list jsstring) (i : nat) (fuel : nat) : nat :=
  match fuel with
  | O => i
  | S fuel' =>
      if (i <? Nat.min 3 (length lines))%nat
         && negb (match lines !! i with
                  | Some l => test re_question l
                  | None => false
                  end)
      then scan_question lines (S i) fuel'
      else i
  end.

(** [questionLineIndex] when the loop is left: the index starts at 0 and
    stays below 3 inside the loop, so three rounds are enough. *)
Definition questionLineIndex (lines : list jsstring) : nat :=
  scan_question lines 0 3.

Definition parse_option (idx : nat) (line : jsstring) : AnswerOption :=
  {| opt_id := idx;
     opt_text := replace_empty re_marker line;
     isCorrect := test re_marker line |}.

(** The body of the loop over blocks: [None] where the source says
    [continue], [Some q] where it pushes [q]. *)
Definition parse_block (block : jsstring) : option Question :=
  let lines := block_lines block in
  if (length lines <? 4)%nat then None
  else
    let qi := questionLineIndex lines in
    if (length lines <=? qi)%nat then None
    else
      match lines !! qi with
      | None => None
      | Some questionLine =>
          match match_re re_question questionLine with
          | None => None
          | Some (segs, _) =>
              let qid := Number (default [] (head segs)) in
              let qtext := trim (replace_empty re_prefix questionLine) in
              let optionLines :=
                take 3 (filter (fun l => nonempty l) (drop (S qi) lines)) in
              if (length optionLines =? 3)%nat
              then Some {| q_id := qid; q_text := qtext;
                           options := imap parse_option optionLines |}
              else None
          end
      end.

(** [raw.split(sep).map(b => b.trim()).filter(b => b.length > 0)] *)
Definition blocks_of (raw : jsstring) : list jsstring :=
  filter (fun b => nonempty b) (map trim (split re_separator raw)).

(** The list [questions] before deduplication. *)
Definition parsed_questions (raw : jsstring) : list Question :=
  omap parse_block (blocks_of raw).

(** The deduplication loop, with the set [seen]. *)
Fixpoint dedupe (seen : gset number) (qs : list Question) : list Question :=
  match qs with
  | [] => []
  | q :: qs' =>
      if decide (q_id q ∈ seen) then dedupe seen qs'
      else q :: dedupe ({[q_id q]} ∪ seen) qs'
  end.

Definition parseQuestions (raw : jsstring) : list Question :=
  dedupe ∅ (parsed_questions raw).

(** ** Session state *)

Record SessionQuestionState : Type := mkQuestionState {
  questionId : option number;   (* absent on a record built from no record *)
  consecutiveCorrect : Z;
  isExcluded : bool
}.

Record SessionState : Type := mkSession {
  questionStates : gmap number SessionQuestionState;
  currentQuestionId : option number
}.

Record StatsState : Type := mkStats {
  totalAnswers : Z;
  correctAnswers : Z
}.

(** The state of the [App] component once the corpus is loaded.
    [displayedOptions] is the memoised shuffle of the current question's
    options.  ([showExcludedNotice] and the clock only drive the display.) *)
Record App : Type := mkApp {
  session : SessionState;
  stats : StatsState;
  selectedIdx : option nat;
  hasAnswered : bool;
  displayedOptions : list AnswerOption
}.

(** A handler either commits a new state or throws a [TypeError] (reading a
    property of [undefined]). *)
Inductive outcome (A : Type) : Type :=
  | Ok (a : A)
  | TypeError.
Arguments Ok {A} a.
Arguments TypeError {A}.

(** [useState] initialisers with nothing stored. *)
Definition freshSession : SessionState :=
  {| questionStates := ∅; currentQuestionId := None |}.

Definition freshStats : StatsState :=
  {| totalAnswers := 0; correctAnswers := 0 |}.

Definition freshRecord (q : Question) : SessionQuestionState :=
  {| questionId := Some (q_id q); consecutiveCorrect := 0;
     isExcluded := false |}.

(** The effect on [allQuestions.length]: a record for every question that
    has none. *)
Definition initializeStates (allQuestions : list Question)
    (prev : SessionState) : SessionState :=
  if (length allQuestions =? 0)%nat then prev
  else
    {| questionStates :=
         foldl (fun m q =>
                  match m !! q_id q with
                  | Some _ => m
                  | None => <[q_id q := freshRecord q]> m
                  end)
               (questionStates prev) allQuestions;
       currentQuestionId := currentQuestionId prev |}.

(** [Object.values(session.questionStates).filter(qs => !qs.isExcluded).length] *)
Definition activeCount (s : SessionState) : nat :=
  length (filter (fun kv => negb (isExcluded kv.2))
                 (map_to_list (questionStates s))).

Definition isFinished (s : SessionState) : bool :=
  (activeCount s =? 0)%nat.

(** [allQuestions.find(q => q.id === session.currentQuestionId) || null] *)
Definition currentQuestion (allQuestions : list Question) (s : SessionState)
    : option Question :=
  match currentQuestionId s with
  | Some i => List.find (fun q => bool_decide (q_id q = i)) allQuestions
  | None => None
  end.

(** [!states[q.id]?.isExcluded]: a question without a record gives
    [undefined], which is falsy. *)
Definition not_excluded (states : gmap number SessionQuestionState)
    (q : Question) : bool :=
  negb (match states !! q_id q with
        | Some qs => isExcluded qs
        | None => false
        end).

Definition candidates (questions : list Question)
    (states : gmap number SessionQuestionState) : list Question :=
  filter (fun q => not_excluded states q) questions.

(** [Math.floor(Math.random() * n)] is some index below [n]: the draw is
    given as a natural number [rnd] and reduced modulo [n]. *)
Definition pickNextQuestionId (questions : list Question)
    (states : gmap number SessionQuestionState) (rnd : nat) : option number :=
  let cs := candidates questions states in
  if (length cs =? 0)%nat then None
  else q_id <$> cs !! (rnd mod length cs)%nat.

(** The Fisher-Yates loop of [displayedOptions]; the draw of round [i] is
    [draws i], reduced modulo [i + 1]. *)
Definition swap {A} (l : list A) (i j : nat) : list A :=
  match l !! i, l !! j with
  | Some a, Some b => <[j := a]> (<[i := b]> l)
  | _, _ => l
  end.

Fixpoint shuffle_from {A} (draws : nat -> nat) (i : nat) (l : list A)
    : list A :=
  match i with
  | O => l
  | S i' => shuffle_from draws i' (swap l i (draws i mod S i)%nat)
  end.

Definition shuffle {A} (draws : nat -> nat) (l : list A) : list A :=
  shuffle_from draws (length l - 1) l.

(** The updater passed to [setSession] in [handleAnswer]: [qs] is the
    record of the current question, [undefined] when there is none. *)
Definition answerRecord (qs : option SessionQuestionState) (correct : bool)
    : outcome SessionQuestionState :=
  let next :=
    if correct then
      match qs with
      | Some r => Ok (js_add (consecutiveCorrect r) 1)
      | None => TypeError
      end
    else Ok 0 in
  match next with
  | Ok n =>
      Ok {| questionId := qs ≫= questionId;
            consecutiveCorrect := n;
            isExcluded := correct && (5 <=? n) |}
  | TypeError => TypeError
  end.

(** [displayedOptions[idx]?.isCorrect === true] *)
Definition chosenIsCorrect (st : App) (idx : nat) : bool :=
  match displayedOptions st !! idx with
  | Some o => isCorrect o
  | None => false
  end.

Definition handleAnswer (allQuestions : list Question) (st : App) (idx : nat)
    : outcome App :=
  match currentQuestion allQuestions (session st) with
  | None => Ok st
  | Some cq =>
      if hasAnswered st then Ok st
      else
        let correct := chosenIsCorrect st idx in
        let prev := session st in
        match answerRecord (questionStates prev !! q_id cq) correct with
        | TypeError => TypeError
        | Ok nextQs =>
            Ok {| session :=
                    {| questionStates :=
                         <[q_id cq := nextQs]> (questionStates prev);
                       currentQuestionId := currentQuestionId prev |};
                  stats :=
                    {| totalAnswers := js_add (totalAnswers (stats st)) 1;
                       correctAnswers :=
                         js_add (correctAnswers (stats st))
                                (if correct then 1 else 0) |};
                  selectedIdx := Some idx;
                  hasAnswered := true;
                  displayedOptions := displayedOptions st |}
        end
  end.

(** The updater shared by the start button, the button of the final screen
    and [handleNext]. *)
Definition advance (allQuestions : list Question) (st : App) (rnd : nat)
    : App :=
  {| session :=
       {| questionStates := questionStates (session st);
          currentQuestionId :=
            pickNextQuestionId allQuestions (questionStates (session st)) rnd |};
     stats := stats st;
     selectedIdx := selectedIdx st;
     hasAnswered := hasAnswered st;
     displayedOptions := displayedOptions st |}.

Definition handleNext (allQuestions : list Question) (st : App) (rnd : nat)
    : App :=
  match currentQuestion allQuestions (session st) with
  | None => st
  | Some _ => advance allQuestions st rnd
  end.

(** The [onClick] of the start button: no test before the update. *)
Definition handleStart (allQuestions : list Question) (st : App) (rnd : nat)
    : App :=
  advance allQuestions st rnd.

(** The start button is part of the page only in the branch
    [!session.currentQuestionId || isFinished], and there under
    [!isFinished].  [!session.currentQuestionId] holds for [null] and for
    the id 0. *)
Definition falsy_id (i : option number) : bool :=
  match i with
  | None => true
  | Some (Fin n) => (n =? 0)%N
  | Some Infinity => false
  end.

Definition startButtonShown (st : App) : bool :=
  (falsy_id (currentQuestionId (session st)) || isFinished (session st))
  && negb (isFinished (session st)).

Definition handleReset (st : App) : App :=
  {| session := freshSession;
     stats := freshStats;
     selectedIdx := selectedIdx st;
     hasAnswered := hasAnswered st;
     displayedOptions := displayedOptions st |}.

(** What follows a committed update: the memo [displayedOptions] is
    recomputed when [currentQuestion?.id] has changed, and the effect on
    [session.currentQuestionId] clears the selection when that id has
    changed. *)
Definition rerender (allQuestions : list Question) (draws : nat -> nat)
    (old new : App) : App :=
  let cq := currentQuestion allQuestions (session new) in
  {| session := session new;
     stats := stats new;
     selectedIdx :=
       if decide (currentQuestionId (session new)
                  = currentQuestionId (session old))
       then selectedIdx new else None;
     hasAnswered :=
       if decide (currentQuestionId (session new)
                  = currentQuestionId (session old))
       then hasAnswered new else false;
     displayedOptions :=
       if decide (q_id <$> cq
                  = q_id <$> currentQuestion allQuestions (session old))
       then displayedOptions new
       else match cq with
            | Some q => shuffle draws (options q)
            | None => []
            end |}.

(** ** The component as a transition system *)

Inductive event : Type :=
  | Start (rnd : nat)          (* a click on either start button *)
  | Answer (idx : nat)         (* a click on an option, or key 1, 2, 3 *)
  | Next (rnd : nat)           (* the next button, or Enter *)
  | Timer (rnd : nat)          (* the delayed [handleNext] after an exclusion,
                                  whose closure saw a current question *)
  | Reset.

(** The state after mounting with nothing stored and loading the corpus. *)
Definition initial (allQuestions : list Question) : App :=
  {| session := initializeStates allQuestions freshSession;
     stats := freshStats;
     selectedIdx := None;
     hasAnswered := false;
     displayedOptions := [] |}.

Definition handle (allQuestions : list Question) (st : App) (e : event)
    : outcome App :=
  match e with
  | Start rnd => Ok (handleStart allQuestions st rnd)
  | Answer idx => handleAnswer allQuestions st idx
  | Next rnd => Ok (handleNext allQuestions st rnd)
  | Timer rnd => Ok (advance allQuestions st rnd)
  | Reset => Ok (handleReset st)
  end.

Definition step (allQuestions : list Question) (draws : nat -> nat)
    (st : App) (e : event) : outcome App :=
  match handle allQuestions st e with
  | Ok st' => Ok (rerender allQuestions draws st st')
  | TypeError => TypeError
  end.

Fixpoint run (allQuestions : list Question) (draws : nat -> nat)
    (st : App) (es : list event) : outcome App :=
  match es with
  | [] => Ok st
  | e :: es' =>
      match step allQuestions draws st e with
      | Ok st' => run allQuestions draws st' es'
      | TypeError => TypeError
      end
  end.

Inductive reachable (allQuestions : list Question) : App -> Prop :=
  | reachable_initial : reachable allQuestions (initial allQuestions)
  | reachable_step st e draws st' :
      reachable allQuestions st ->
      step allQuestions draws st e = Ok st' ->
      reachable allQuestions st'.

(** ** Derived signals of the page *)

(** [Math.max(totalCount - activeCount, 0)] *)
Definition completedCount (allQuestions : list Question) (s : SessionState)
    : Z :=
  Z.max (Z.of_nat (length allQuestions) - Z.of_nat (activeCount s)) 0.

(** [currentQuestion ?
     (session.questionStates[currentQuestion.id]?.consecutiveCorrect || 0)
     : 0] *)
Definition currentStreak (allQuestions : list Question) (s : SessionState)
    : Z :=
  match currentQuestion allQuestions s with
  | Some q =>
      match questionStates s !! q_id q with
      | Some r => consecutiveCorrect r
      | None => 0
      end
  | None => 0
  end.

(** ** The clock of usePersistentTimer

    [elapsedMs] is an integer number of milliseconds (a difference of two
    [Date.now()]).  The definitions below give the values of the source for
    an integer below 2^53 in magnitude: there the floor of the quotient of
    the doubles is the floor division of the integers, [%] is the remainder
    that takes the sign of the dividend, and [String] writes an integer in
    decimal.  What is proved of the clock keeps to elapsed times below 100
    hours. *)

(** [String(n)] for an integer below 10^21. *)
Definition String_of (n : Z) : string :=
  NilZero.string_of_int (Z.to_int n).

(** [s.padStart(2, '0')] *)
Definition padStart2 (s : string) : string :=
  match String.length s with
  | O => "00"
  | S O => String "0" s
  | _ => s
  end.

Definition clock_hh (elapsedMs : Z) : Z := elapsedMs / 3600000.
Definition clock_mm (elapsedMs : Z) : Z :=
  Z.rem elapsedMs 3600000 / 60000.
Definition clock_ss (elapsedMs : Z) : Z :=
  Z.rem elapsedMs 60000 / 1000.

Definition formatted (elapsedMs : Z) : string :=
  (padStart2 (String_of (clock_hh elapsedMs)) ++ ":"
   ++ padStart2 (String_of (clock_mm elapsedMs)) ++ ":"
   ++ padStart2 (String_of (clock_ss elapsedMs)))%string.

(** * Notions and sample data of the statements *)

(** The longest run an atom can take at the start of the input, and what
    is left after it. *)
Fixpoint greedy (k : cclass) (hi : option nat) (s : jsstring)
    : jsstring * jsstring :=
  match s with
  | c :: s' =>
      if in_class k c && may_repeat hi then
        let (a, b) := greedy k (dec_max hi) s' in (c :: a, b)
      else ([], s)
  | [] => ([], [])
  end.

(** Every atom takes its longest run. *)
Fixpoint greedy_re (re : regex) (s : jsstring)
    : option (list jsstring * jsstring) :=
  match re with
  | [] => Some ([], s)
  | a :: re' =>
      let (seg, rest) := greedy (cls a) (rmax a) s in
      if (rmin a <=? length seg)%nat then
        match greedy_re re' rest with
        | Some (segs, r) => Some (seg :: segs, r)
        | None => None
        end
      else None
  end.

(** A text that does not start with a blank character. *)
Definition no_leading_space (s : jsstring) : Prop :=
  match s with
  | c :: _ => is_space c = false
  | [] => True
  end.

(** The function the record-creating effect folds over the bank. *)
Definition ensureRecord (m : gmap number SessionQuestionState)
    (q : Question) : gmap number SessionQuestionState :=
  match m !! q_id q with
  | Some _ => m
  | None => <[q_id q := freshRecord q]> m
  end.

(** A run without a reset. *)
Definition no_reset (es : list event) : Prop :=
  Forall (fun e => e <> Reset) es.

(** The states that the handlers reach from the initial state without a
    reset, each render with draws of its own. *)
Inductive reachable_without_reset (allQuestions : list Question)
    : App -> Prop :=
  | without_reset_initial :
      reachable_without_reset allQuestions (initial allQuestions)
  | without_reset_step st e draws st' :
      reachable_without_reset allQuestions st ->
      e <> Reset ->
      step allQuestions draws st e = Ok st' ->
      reachable_without_reset allQuestions st'.

(** The records are those of the bank: every question has one and there
    is no other. *)
Definition records_of_bank (allQuestions : list Question)
    (m : gmap number SessionQuestionState) : Prop :=
  dom m = list_to_set (q_id <$> allQuestions).

(** The current question has been answered and it is the only one a draw
    can give. *)
Definition last_open (allQuestions : list Question) (st : App) : Prop :=
  hasAnswered st = true
  /\ is_Some (currentQuestion allQuestions (session st))
  /\ candidates allQuestions (questionStates (session st)) <> []
  /\ (forall q, q ∈ candidates allQuestions (questionStates (session st)) ->
        currentQuestionId (session st) = Some (q_id q)).

(** The text [seg] is a match of the atom [a]. *)
Definition atom_matches (a : atom) (seg : jsstring) : Prop :=
  Forall (fun c => in_class (cls a) c = true) seg
  /\ (rmin a <= length seg)%nat
  /\ (forall n, rmax a = Some n -> (length seg <= n)%nat).


(** The corpus of the worked example, without and with a line break after
    the separator. *)
Definition sky : jsstring :=
  units "12. What color is the sky?" ++ [LF] ++ units "* blue" ++ [LF]
  ++ units "red" ++ [LF] ++ units "green" ++ [LF] ++ replicate 35 95%N.

Definition sky_question : Question :=
  {| q_id := Fin 12;
     q_text := units "What color is the sky?";
     options := [ mkOption 0 (units "blue") true;
                  mkOption 1 (units "red") false;
                  mkOption 2 (units "green") false ] |}.

(** A block whose fourth line is the first to carry a number. *)
Definition late_question : jsstring :=
  units "Section A" ++ [LF] ++ units "Meteorology" ++ [LF]
  ++ units "Easy" ++ [LF] ++ units "4. Which way is up?" ++ [LF]
  ++ units "* north" ++ [LF] ++ units "south" ++ [LF] ++ units "east".

(** A corpus with the id 7 in its first and in its third block. *)
Definition twice : jsstring :=
  units "7. First?" ++ [LF] ++ units "* a" ++ [LF] ++ units "b" ++ [LF]
  ++ units "c" ++ [LF] ++ replicate 35 95%N ++ [LF]
  ++ units "8. Other?" ++ [LF] ++ units "d" ++ [LF] ++ units "* e" ++ [LF]
  ++ units "f" ++ [LF] ++ replicate 36 95%N ++ [LF]
  ++ units "7. Second?" ++ [LF] ++ units "x" ++ [LF] ++ units "y" ++ [LF]
  ++ units "* z" ++ [LF].

Definition twice_first : Question :=
  {| q_id := Fin 7;
     q_text := units "First?";
     options := [ mkOption 0 (units "a") true;
                  mkOption 1 (units "b") false;
                  mkOption 2 (units "c") false ] |}.

(** The active pool in the words of the specification: the questions of the
    bank whose progress record has [isExcluded = false]. *)
Definition active_record (states : gmap number SessionQuestionState)
    (q : Question) : bool :=
  match states !! q_id q with
  | Some r => negb (isExcluded r)
  | None => false
  end.

Definition active_pool (questions : list Question)
    (states : gmap number SessionQuestionState) : list Question :=
  filter (fun q => active_record states q) questions.

(** Either start button is part of the page only in the branch
    [!session.currentQuestionId || isFinished]. *)
Definition startOffered (st : App) : bool :=
  falsy_id (currentQuestionId (session st)) || isFinished (session st).

(** A question without a correct option, on the screen. *)
Definition no_star : Question :=
  {| q_id := Fin 3;
     q_text := units "Pick one";
     options := [ mkOption 0 (units "a") false;
                  mkOption 1 (units "b") false;
                  mkOption 2 (units "c") false ] |}.

Definition no_star_shown : App :=
  {| session :=
       {| questionStates :=
            <[Fin 3 := mkQuestionState (Some (Fin 3)) 4 false]> ∅;
          currentQuestionId := Some (Fin 3) |};
     stats := {| totalAnswers := 9; correctAnswers := 4 |};
     selectedIdx := None;
     hasAnswered := false;
     displayedOptions := shuffle (fun _ => 0%nat) (options no_star) |}.

(** The question [no_star] once answered. *)
Definition no_star_answered : App :=
  {| session := session no_star_shown;
     stats := stats no_star_shown;
     selectedIdx := Some 1%nat;
     hasAnswered := true;
     displayedOptions := displayedOptions no_star_shown |}.

(** A bank of two questions. *)
Definition bank12 : list Question :=
  [ {| q_id := Fin 1; q_text := units "One?";
       options := [ mkOption 0 (units "a") true;
                    mkOption 1 (units "b") false;
                    mkOption 2 (units "c") false ] |};
    {| q_id := Fin 2; q_text := units "Two?";
       options := [ mkOption 0 (units "d") false;
                    mkOption 1 (units "e") true;
                    mkOption 2 (units "f") false ] |} ].

(** The options on the screen are a shuffle of the options of the current
    question. *)
Definition displayed_ok (allQuestions : list Question) (st : App) : Prop :=
  match currentQuestion allQuestions (session st) with
  | Some q => exists draws, displayedOptions st = shuffle draws (options q)
  | None => displayedOptions st = []
  end.

(** A record in range: the streak between 0 and 5, excluded exactly at 5. *)
Definition record_ok (r : SessionQuestionState) : Prop :=
  0 <= consecutiveCorrect r <= 5
  /\ (isExcluded r = true <-> consecutiveCorrect r = 5).

(** Every record is in range, and an excluded question is current only once
    its presentation has been answered. *)
Definition engine_inv (allQuestions : list Question) (st : App) : Prop :=
  (forall i r, questionStates (session st) !! i = Some r -> record_ok r)
  /\ (forall q r,
        currentQuestion allQuestions (session st) = Some q ->
        questionStates (session st) !! q_id q = Some r ->
        isExcluded r = true -> hasAnswered st = true).

(** Question 1 answered correctly five times, question 2 wrongly in
    between (with the options shown in their order of the bank, option 0 is
    the correct one of question 1 and a wrong one of question 2). *)
Definition five_correct : list event :=
  [Start 0; Answer 0; Next 1; Answer 0; Next 0; Answer 0; Next 1; Answer 0;
   Next 0; Answer 0; Next 1; Answer 0; Next 0; Answer 0; Next 1; Answer 0;
   Next 0; Answer 0].

(** The state at the end of that run. *)
Definition after_five : App :=
  match run bank12 (fun i => i) (initial bank12) five_correct with
  | Ok st => st
  | TypeError => initial bank12
  end.

(** The bank of the one question of the worked example, after a start
    and one answer. *)
Definition answered_once : App :=
  match run [sky_question] (fun i => i) (initial [sky_question])
            [Start 0; Answer 0] with
  | Ok st => st
  | TypeError => initial [sky_question]
  end.

(** Question 1 of [bank12] on the screen, its correct option first. *)
Definition one_shown : App :=
  match run bank12 (fun i => i) (initial bank12) [Start 0] with
  | Ok st => st
  | TypeError => initial bank12
  end.

(** The same state after the answer with the first option. *)
Definition one_answered : App :=
  match run bank12 (fun i => i) (initial bank12) [Start 0; Answer 0] with
  | Ok st => st
  | TypeError => initial bank12
  end.

(** The character of a decimal digit, and a number below 100 written
    with two digits. *)
Definition digit_char (d : Z) : ascii := ascii_of_nat (48 + Z.to_nat d).

Definition two_digits (n : Z) : string :=
  String (digit_char (n / 10)) (String (digit_char (n mod 10)) EmptyString).

(** The first question of [bank12]. *)
Definition question_one : Question :=
  {| q_id := Fin 1; q_text := units "One?";
     options := [ mkOption 0 (units "a") true;
                  mkOption 1 (units "b") false;
                  mkOption 2 (units "c") false ] |}.

(** * Properties of the parser *)

Section Parser.

(** The matcher on small inputs: the number, optional blanks and the period
    of a question line; the marker of a correct option; a separator between
    blank characters, where [\s*] has to give back a line break; a line of
    34 underscores, which separates nothing. *)
Example question_line_pattern :
  test re_question (units "12. x") = true
  /\ test re_question (units "12 .x") = true
  /\ test re_question (units "12 x.") = false
  /\ test re_question (units "No 12.") = false
  /\ match_re re_prefix (units "12 . x")
     = Some ([units "12"; units " "; units "."; units " "], units "x")
  /\ match_re re_marker (units "*  a")
     = Some ([units "*"; units "  "], units "a")
  /\ test re_marker (units "a*") = false.
Proof. vm_compute. done. Qed.

Example separator_pattern :
  split re_separator
    (units "a" ++ [LF] ++ units "  " ++ replicate 35 95%N ++ units " "
     ++ [LF; LF] ++ units "b") = [units "a"; units "b"]
  /\ length (split re_separator
               (units "a" ++ [LF] ++ replicate 34 95%N ++ [LF] ++ units "b"))
     = 1%nat
  /\ split re_newline
       (units "a" ++ [CR; LF] ++ units "b" ++ [LF; CR] ++ units "c" ++ [LF])
     = [units "a"; units "b"; CR :: units "c"; []].
Proof. vm_compute. done. Qed.

(** Ids are doubles: leading zeros are dropped, integers above 2^53 are
    rounded, and a long enough run of digits is Infinity. *)
Example Number_rounds :
  Number (units "007") = Fin 7
  /\ Number (units "9007199254740993") = Fin 9007199254740992
  /\ Number (replicate 400 57%N) = Infinity.
Proof. vm_compute. done. Qed.

(** C6: the corpus "12. What color is the sky?\n* blue\nred\ngreen\n"
    followed by a line of 35 underscores (ended by a line break or not)
    parses to the single question 12 with the options blue (correct), red
    and green, numbered 0, 1, 2 in that order. *)
Theorem parse_sky :
  parseQuestions sky = [sky_question]
  /\ parseQuestions (sky ++ [LF]) = [sky_question].
Proof. split; vm_compute; reflexivity. Qed.

(** The loop that looks for the question line stops where its condition is
    false: no line before the index matches, and an index inside the window
    of three is the index of a matching line. *)
Lemma scan_question_spec lines i fuel :
  (i + fuel >= Nat.min 3 (length lines))%nat ->
  let r := scan_question lines i fuel in
  (i <= r)%nat
  /\ (forall j l, (i <= j < r)%nat -> lines !! j = Some l ->
        test re_question l = false)
  /\ ((r < Nat.min 3 (length lines))%nat ->
        exists l, lines !! r = Some l /\ test re_question l = true)
  /\ (r <= Nat.max i (Nat.min 3 (length lines)))%nat.
Proof.
  revert i. induction fuel as [|fuel IH]; intros i Hfuel; cbn [scan_question].
  - cbv zeta. split_and!; [lia | intros; lia | intros; lia | lia].
  - destruct (Nat.ltb_spec i (Nat.min 3 (length lines))) as [Hlt|Hge];
      cbn [andb];
      [|cbv zeta; split_and!; [lia | intros; lia | intros; lia | lia]].
    destruct (lines !! i) as [l|] eqn:Hl;
      [|apply lookup_ge_None in Hl; lia].
    destruct (test re_question l) eqn:Ht; cbn [negb].
    + cbv zeta. split_and!; [lia | intros; lia | eauto | lia].
    + specialize (IH (S i) ltac:(lia)). cbv zeta in IH |- *.
      destruct IH as (H1 & H2 & H3 & H4).
      split_and!; [lia | | done | lia].
      intros j l' Hj Hl'. destruct (decide (j = i)) as [->|].
      * congruence.
      * apply (H2 j); [lia | done].
Qed.

(** In a block that passes the length test the index is at most 3, so the
    test [questionLineIndex >= lines.length] never discards it, and the line
    at index 3 is looked at when the first three do not match. *)
Lemma questionLineIndex_window lines :
  (4 <= length lines)%nat ->
  (questionLineIndex lines <= 3)%nat
  /\ (questionLineIndex lines < length lines)%nat
  /\ (forall j l, (j < questionLineIndex lines)%nat -> lines !! j = Some l ->
        test re_question l = false).
Proof.
  intros Hlen. unfold questionLineIndex.
  destruct (scan_question_spec lines 0 3 ltac:(lia)) as (_ & H2 & _ & H4).
  repeat split; try lia. intros j l Hj. apply H2. lia.
Qed.

(** C3: a block whose first three lines do not match the pattern of a
    question line is not discarded when its fourth line does: the question
    is taken from the fourth line. *)
Theorem fourth_line_accepted :
  (forall l, l ∈ take 3 (block_lines late_question) ->
     test re_question l = false)
  /\ parseQuestions late_question =
       [ {| q_id := Fin 4;
            q_text := units "Which way is up?";
            options := [ mkOption 0 (units "north") true;
                         mkOption 1 (units "south") false;
                         mkOption 2 (units "east") false ] |} ].
Proof.
  split; [|vm_compute; reflexivity].
  intros l Hl. vm_compute in Hl.
  repeat (apply elem_of_cons in Hl as [->|Hl]; [vm_compute; reflexivity|]).
  by apply elem_of_nil in Hl.
Qed.

(** Deduplication keeps, of the questions with a given id, the first one
    whose id was not seen before. *)
Lemma dedupe_filter_id (i : number) (qs : list Question)
    (seen : gset number) :
  filter (fun q => q_id q = i) (dedupe seen qs) =
    if decide (i ∈ seen) then []
    else option_list (head (filter (fun q => q_id q = i) qs)).
Proof.
  revert seen. induction qs as [|q qs IH]; intros seen; cbn [dedupe].
  - rewrite filter_nil. by case_decide.
  - destruct (decide (q_id q ∈ seen)) as [Hin|Hnin].
    + rewrite IH. case_decide; [done|].
      rewrite filter_cons_False; [done|]. intros Heq. subst i. done.
    + destruct (decide (q_id q = i)) as [Heq|Hne].
      * rewrite !filter_cons_True by done. rewrite IH.
        rewrite decide_True
          by (apply elem_of_union_l, elem_of_singleton; done).
        subst i. rewrite decide_False by done. done.
      * rewrite !filter_cons_False by done. rewrite IH.
        destruct (decide (i ∈ seen)).
        -- rewrite decide_True by (apply elem_of_union_r; done). done.
        -- rewrite decide_False; [done|].
           intros [Hi|Hi]%elem_of_union; [|done].
           apply elem_of_singleton in Hi. congruence.
Qed.

(** The first block, in order, that gives a question with a property. *)
Lemma first_parsed {A B} (f : A -> option B) (P : B -> Prop)
    `{!forall x, Decision (P x)} (bs : list A) (j : nat) (b : A) (y : B) :
  bs !! j = Some b -> f b = Some y -> P y ->
  exists k b0 y0,
    (k <= j)%nat /\ bs !! k = Some b0 /\ f b0 = Some y0 /\ P y0
    /\ (forall k' b' y', (k' < k)%nat -> bs !! k' = Some b' ->
          f b' = Some y' -> ~ P y')
    /\ head (filter P (omap f bs)) = Some y0.
Proof.
  revert j. induction bs as [|a bs IH]; intros j Hj Hf HP; [done|].
  assert (Hlater : forall j', bs !! j' = Some b ->
            forall ya, (f a = None \/ (f a = Some ya /\ ~ P ya)) ->
            exists k b0 y0,
              (k <= S j')%nat /\ (a :: bs) !! k = Some b0 /\ f b0 = Some y0
              /\ P y0
              /\ (forall k' b' y', (k' < k)%nat -> (a :: bs) !! k' = Some b' ->
                    f b' = Some y' -> ~ P y')
              /\ head (filter P (omap f (a :: bs))) = Some y0).
  { intros j' Hj' ya Ha.
    destruct (IH j' Hj' Hf HP)
      as (k & b0 & y0 & Hk & Hb0 & Hy0 & HP0 & Hfirst & Hhead).
    exists (S k), b0, y0. split_and!; [lia | done | done | done | |].
    - intros [|k'] b' y' Hlt Hb' Hy'.
      + injection Hb' as <-. destruct Ha as [Ha|[Ha HnP]]; congruence.
      + apply (Hfirst k' b' y'); [lia | done | done].
    - csimpl. destruct Ha as [Ha|[Ha HnP]]; rewrite Ha; [done|].
      by rewrite filter_cons_False. }
  destruct (f a) as [ya|] eqn:Hfa.
  - destruct (decide (P ya)) as [HPa|HnPa].
    + exists 0%nat, a, ya. split_and!; [lia | done | done | done | |].
      * intros k' b' y' Hlt. lia.
      * csimpl. rewrite Hfa. by rewrite filter_cons_True.
    + destruct j as [|j].
      * injection Hj as ->. congruence.
      * apply (Hlater j Hj ya). right. done.
  - destruct j as [|j].
    + injection Hj as ->. congruence.
    + apply (Hlater j Hj y). left. done.
Qed.

(** C5: when two blocks of a corpus parse to questions with the same id,
    the output holds exactly one question with that id, the one parsed from
    the first block, in order, that gives this id; the later ones leave
    nothing in the output. *)
Theorem parse_keeps_first (raw : jsstring) (j1 j2 : nat) (b1 b2 : jsstring)
    (q1 q2 : Question) :
  (j1 < j2)%nat ->
  blocks_of raw !! j1 = Some b1 -> parse_block b1 = Some q1 ->
  blocks_of raw !! j2 = Some b2 -> parse_block b2 = Some q2 ->
  q_id q1 = q_id q2 ->
  exists k b0 q0,
    (k <= j1)%nat /\ blocks_of raw !! k = Some b0 /\ parse_block b0 = Some q0
    /\ q_id q0 = q_id q1
    /\ (forall k' b' q', (k' < k)%nat -> blocks_of raw !! k' = Some b' ->
          parse_block b' = Some q' -> q_id q' <> q_id q1)
    /\ filter (fun q => q_id q = q_id q1) (parseQuestions raw) = [q0].
Proof.
  intros _ Hb1 Hq1 _ _ _.
  destruct (first_parsed parse_block (fun q => q_id q = q_id q1)
              (blocks_of raw) j1 b1 q1 Hb1 Hq1 eq_refl)
    as (k & b0 & q0 & Hk & Hb0 & Hq0 & Hid & Hfirst & Hhead).
  exists k, b0, q0. repeat split; try done.
  unfold parseQuestions, parsed_questions.
  rewrite dedupe_filter_id, decide_False by set_solver.
  by rewrite Hhead.
Qed.

Lemma parse_keeps_first_witness :
  filter (fun q => q_id q = Fin 7) (parseQuestions twice) = [twice_first].
Proof.
  destruct (parse_keeps_first twice 0 2
              (units "7. First?" ++ [LF] ++ units "* a" ++ [LF]
               ++ units "b" ++ [LF] ++ units "c")
              (units "7. Second?" ++ [LF] ++ units "x" ++ [LF]
               ++ units "y" ++ [LF] ++ units "* z")
              twice_first
              {| q_id := Fin 7;
                 q_text := units "Second?";
                 options := [ mkOption 0 (units "x") false;
                              mkOption 1 (units "y") false;
                              mkOption 2 (units "z") true ] |}
              ltac:(lia) ltac:(vm_compute; reflexivity)
              ltac:(vm_compute; reflexivity) ltac:(vm_compute; reflexivity)
              ltac:(vm_compute; reflexivity) ltac:(reflexivity))
    as (k & b0 & q0 & Hk & Hb0 & Hq0 & _ & _ & Hout).
  assert (k = 0%nat) as -> by lia.
  assert (q0 = twice_first) as ->.
  { vm_compute in Hb0. injection Hb0 as <-. vm_compute in Hq0.
    injection Hq0 as <-. reflexivity. }
  exact Hout.
Defined.

End Parser.

(** * Properties of the session engine *)

Section Engine.

Implicit Types (allQuestions questions : list Question).
Implicit Types (states : gmap number SessionQuestionState).
Implicit Types (st : App) (q : Question) (r : SessionQuestionState).

(** ** Runs *)

Lemma reachable_run allQuestions draws es st st' :
  reachable allQuestions st ->
  run allQuestions draws st es = Ok st' ->
  reachable allQuestions st'.
Proof.
  revert st. induction es as [|e es IH]; intros st Hreach Hrun.
  - by injection Hrun as <-.
  - cbn [run] in Hrun.
    destruct (step allQuestions draws st e) as [st1|] eqn:Hstep; [|done].
    eapply IH; [|done]. by eapply reachable_step.
Qed.

(** ** Selection of the next question *)

Lemma currentQuestion_Some allQuestions (s : SessionState) q :
  currentQuestion allQuestions s = Some q ->
  currentQuestionId s = Some (q_id q) /\ q ∈ allQuestions.
Proof.
  unfold currentQuestion. destruct (currentQuestionId s) as [i|]; [|done].
  intros [Hin Heq]%find_some. apply bool_decide_eq_true in Heq.
  split; [by rewrite Heq | by apply list_elem_of_In].
Qed.

Lemma not_excluded_true states q :
  not_excluded states q = true <->
  states !! q_id q = None
  \/ exists r, states !! q_id q = Some r /\ isExcluded r = false.
Proof.
  unfold not_excluded. destruct (states !! q_id q) as [r|].
  - rewrite negb_true_iff. split.
    + intros He. right. by exists r.
    + intros [Hn|(r' & Hr' & He)]; congruence.
  - split; [by left | done].
Qed.

Lemma elem_of_candidates questions states q :
  q ∈ candidates questions states <->
  q ∈ questions /\ not_excluded states q = true.
Proof.
  unfold candidates. rewrite list_elem_of_filter, Is_true_true. tauto.
Qed.

Lemma pickNext_None questions states rnd :
  pickNextQuestionId questions states rnd = None <->
  candidates questions states = [].
Proof.
  unfold pickNextQuestionId.
  destruct (candidates questions states) as [|c cs] eqn:Hcs; [done|].
  destruct (Nat.eqb_spec (length (c :: cs)) 0) as [Hz|Hnz]; [done|].
  split; [|done].
  intros Hnone. apply fmap_None, lookup_ge_None in Hnone.
  pose proof (Nat.mod_upper_bound rnd (length (c :: cs)) Hnz). lia.
Qed.

Lemma pickNext_Some questions states rnd i :
  pickNextQuestionId questions states rnd = Some i ->
  exists q, q ∈ candidates questions states /\ q_id q = i.
Proof.
  unfold pickNextQuestionId.
  destruct (length (candidates questions states) =? 0)%nat; [done|].
  intros (q & Hq & ->)%fmap_Some. exists q. split; [|done].
  by eapply list_elem_of_lookup_2.
Qed.

(** Every candidate can be drawn. *)
Lemma pickNext_any questions states q :
  q ∈ candidates questions states ->
  exists rnd, pickNextQuestionId questions states rnd = Some (q_id q).
Proof.
  intros (k & Hk)%list_elem_of_lookup_1. exists k.
  unfold pickNextQuestionId. pose proof (lookup_lt_Some _ _ _ Hk) as Hlt.
  destruct (Nat.eqb_spec (length (candidates questions states)) 0); [lia|].
  rewrite Nat.mod_small by done. by rewrite Hk.
Qed.

Lemma elem_of_active_pool questions states q :
  q ∈ active_pool questions states <->
  q ∈ questions
  /\ exists r, states !! q_id q = Some r /\ isExcluded r = false.
Proof.
  unfold active_pool, active_record.
  rewrite list_elem_of_filter, Is_true_true.
  destruct (states !! q_id q) as [r|].
  - rewrite negb_true_iff. split.
    + intros [He Hq]. split; [done|]. by exists r.
    + intros [Hq (r' & Hr' & He)]. split; [congruence|done].
  - split; [intros [? ?]; done | intros [_ (r & ? & _)]; done].
Qed.

Lemma filter_ext_elem {A} (P1 P2 : A -> Prop)
    `{!forall x, Decision (P1 x), !forall x, Decision (P2 x)} (l : list A) :
  (forall x, x ∈ l -> P1 x <-> P2 x) -> filter P1 l = filter P2 l.
Proof.
  induction l as [|a l IH]; intros Hext; [done|].
  assert (filter P1 l = filter P2 l) as Hl.
  { apply IH. intros x Hx. apply Hext. by apply list_elem_of_further. }
  assert (P1 a <-> P2 a) as Ha by (apply Hext, list_elem_of_here).
  rewrite !filter_cons, Hl.
  destruct (decide (P1 a)), (decide (P2 a)); tauto.
Qed.

Lemma candidates_active_pool questions states :
  (forall q, q ∈ questions -> is_Some (states !! q_id q)) ->
  candidates questions states = active_pool questions states.
Proof.
  intros Hall. unfold candidates, active_pool.
  apply filter_ext_elem. intros q Hq.
  unfold not_excluded, active_record.
  destruct (Hall q Hq) as [r Hr]. by rewrite Hr.
Qed.

(** C4, as stated, fails: with no record for the only question of the bank
    the active pool is empty, and an id is returned all the same. *)
Lemma pickNext_not_active_pool :
  ~ (forall questions states rnd,
       (pickNextQuestionId questions states rnd = None <->
        active_pool questions states = [])
       /\ (forall i, pickNextQuestionId questions states rnd = Some i ->
             exists q, q ∈ active_pool questions states /\ q_id q = i)).
Proof.
  intros H. destruct (H [sky_question] ∅ 0%nat) as [[_ Hnone] _].
  specialize (Hnone eq_refl). vm_compute in Hnone. discriminate.
Qed.

(** C4, amended: [pickNextQuestionId] returns null exactly when every
    question of the bank has a record with [isExcluded = true]; an id it
    returns is the id of a question of the bank that has no record or a
    record with [isExcluded = false]; and when every question of the bank
    has a record, these questions are the active pool. *)
Theorem pickNext_pool questions states rnd :
  (pickNextQuestionId questions states rnd = None <->
   forall q, q ∈ questions ->
     exists r, states !! q_id q = Some r /\ isExcluded r = true)
  /\ (forall i, pickNextQuestionId questions states rnd = Some i ->
        exists q, q ∈ questions /\ q_id q = i
          /\ (states !! i = None
              \/ exists r, states !! i = Some r /\ isExcluded r = false))
  /\ ((forall q, q ∈ questions -> is_Some (states !! q_id q)) ->
        (pickNextQuestionId questions states rnd = None <->
         active_pool questions states = [])
        /\ (forall i, pickNextQuestionId questions states rnd = Some i ->
              exists q, q ∈ active_pool questions states /\ q_id q = i)).
Proof.
  split_and!.
  - rewrite pickNext_None. split.
    + intros Hnil q Hq.
      destruct (states !! q_id q) as [r|] eqn:Hr.
      * exists r. split; [done|]. destruct (isExcluded r) eqn:He; [done|].
        assert (q ∈ candidates questions states) as Hin.
        { apply elem_of_candidates. split; [done|].
          apply not_excluded_true. eauto. }
        rewrite Hnil in Hin. by apply elem_of_nil in Hin.
      * assert (q ∈ candidates questions states) as Hin.
        { apply elem_of_candidates. split; [done|].
          apply not_excluded_true. eauto. }
        rewrite Hnil in Hin. by apply elem_of_nil in Hin.
    + intros Hall. destruct (candidates questions states) as [|c cs] eqn:Hcs;
        [done|].
      assert (c ∈ candidates questions states) as Hin
        by (rewrite Hcs; apply elem_of_cons; auto).
      apply elem_of_candidates in Hin as [Hc Hne].
      apply not_excluded_true in Hne. destruct (Hall c Hc) as (r & Hr & He).
      destruct Hne as [Hne|(r' & Hr' & He')]; congruence.
  - intros i (q & [Hq Hne]%elem_of_candidates & <-)%pickNext_Some.
    exists q. split_and!; [done..|]. by apply not_excluded_true.
  - intros Hall. rewrite <- (candidates_active_pool _ _ Hall).
    split; [apply pickNext_None | apply pickNext_Some].
Qed.

Lemma pickNext_pool_witness :
  pickNextQuestionId [sky_question] (<[Fin 12 := freshRecord sky_question]> ∅)
    7 = Some (Fin 12)
  /\ sky_question ∈ active_pool [sky_question]
                      (<[Fin 12 := freshRecord sky_question]> ∅).
Proof.
  destruct (pickNext_pool [sky_question]
              (<[Fin 12 := freshRecord sky_question]> ∅) 7)
    as (_ & _ & Hpool).
  destruct Hpool as [_ Hsome].
  { intros q ->%list_elem_of_singleton. vm_compute. eauto. }
  assert (pickNextQuestionId [sky_question]
            (<[Fin 12 := freshRecord sky_question]> ∅) 7 = Some (Fin 12))
    as Hpick by (vm_compute; reflexivity).
  split; [exact Hpick|].
  destruct (Hsome _ Hpick) as (q & Hq & Hid).
  pose proof Hq as [->%list_elem_of_singleton _]%elem_of_active_pool.
  exact Hq.
Defined.

(** C10: a question of the bank without a progress record is a candidate of
    [pickNextQuestionId] and can be drawn; with such a question in the bank
    the result is never null; in particular, on the empty mapping left by
    [handleReset], the result is the id of some question of the bank. *)
Theorem pickNext_no_record questions states q rnd st :
  q ∈ questions ->
  states !! q_id q = None ->
  q ∈ candidates questions states
  /\ (exists q', q' ∈ candidates questions states
        /\ pickNextQuestionId questions states rnd = Some (q_id q'))
  /\ (exists pick, pickNextQuestionId questions states pick = Some (q_id q))
  /\ questionStates (session (handleReset st)) = ∅
  /\ (exists q', q' ∈ questions
        /\ pickNextQuestionId questions
             (questionStates (session (handleReset st))) rnd
           = Some (q_id q')).
Proof.
  intros Hq Hnone.
  assert (q ∈ candidates questions states) as Hcand.
  { apply elem_of_candidates. split; [done|].
    apply not_excluded_true. by left. }
  assert (forall states', q ∈ candidates questions states' ->
            exists q', q' ∈ candidates questions states'
              /\ pickNextQuestionId questions states' rnd = Some (q_id q'))
    as Hpick.
  { intros states' Hin.
    destruct (pickNextQuestionId questions states' rnd) as [i|] eqn:Hp.
    - destruct (pickNext_Some _ _ _ _ Hp) as (q' & Hq' & <-). eauto.
    - apply pickNext_None in Hp. rewrite Hp in Hin.
      by apply elem_of_nil in Hin. }
  split_and!; [done | by apply Hpick | by apply pickNext_any | done |].
  destruct (Hpick ∅) as (q' & [Hq' _]%elem_of_candidates & Hp).
  { apply elem_of_candidates. split; [done|].
    apply not_excluded_true. left. apply lookup_empty. }
  eauto.
Qed.

Lemma pickNext_no_record_witness :
  pickNextQuestionId [sky_question] ∅ 5 = Some (Fin 12).
Proof.
  destruct (pickNext_no_record [sky_question] ∅ sky_question 5
              (initial [sky_question])
              ltac:(apply list_elem_of_singleton; reflexivity)
              ltac:(apply lookup_empty))
    as (_ & (q' & [Hq' _]%elem_of_candidates & Hpick) & _).
  apply list_elem_of_singleton in Hq' as ->. exact Hpick.
Defined.

(** ** Reset *)

Lemma activeCount_empty (s : SessionState) :
  questionStates s = ∅ -> activeCount s = 0%nat.
Proof. unfold activeCount. intros ->. by rewrite map_to_list_empty. Qed.

(** C2: after [handleReset] and the render that follows it, the session has
    no progress record at all (the effect that creates the records depends
    on [allQuestions.length] alone and does not run again): the statistics
    are zero and no question is current, every question of the bank is a
    candidate of [pickNextQuestionId], but [activeCount] is 0, whatever the
    size of the bank, and the session counts as finished: the count equals
    the size of the bank for the empty bank only. *)
Theorem reset_active_count allQuestions draws st :
  step allQuestions draws st Reset
    = Ok (rerender allQuestions draws st (handleReset st))
  /\ questionStates
       (session (rerender allQuestions draws st (handleReset st))) = ∅
  /\ currentQuestionId
       (session (rerender allQuestions draws st (handleReset st))) = None
  /\ stats (rerender allQuestions draws st (handleReset st)) = freshStats
  /\ candidates allQuestions
       (questionStates
          (session (rerender allQuestions draws st (handleReset st))))
     = allQuestions
  /\ activeCount
       (session (rerender allQuestions draws st (handleReset st))) = 0%nat
  /\ isFinished
       (session (rerender allQuestions draws st (handleReset st))) = true
  /\ (activeCount
        (session (rerender allQuestions draws st (handleReset st)))
      = length allQuestions <-> allQuestions = []).
Proof.
  split_and!; try reflexivity.
  - unfold candidates. cbn.
    induction allQuestions as [|q qs IH]; [done|].
    rewrite filter_cons_True; [by rewrite IH|].
    apply Is_true_true. unfold not_excluded. by rewrite lookup_empty.
  - change (activeCount _) with 0%nat.
    destruct allQuestions; [done|]. split; [cbn; lia | done].
Qed.

(** The bank of the worked example: one active question before the reset,
    none counted after it. *)
Example reset_sky :
  activeCount (session (initial [sky_question])) = 1%nat
  /\ activeCount (session (handleReset (initial [sky_question]))) = 0%nat
  /\ length [sky_question] = 1%nat.
Proof. vm_compute. done. Qed.

(** ** Sums of counters *)

Lemma round_double_small (n : N) : (n < 2 ^ 53)%N -> round_double n = Fin n.
Proof.
  intros Hn. unfold round_double.
  by destruct (N.ltb_spec n (2 ^ 53)); [|lia].
Qed.

(** An integer up to 2^53 in magnitude is a double. *)
Lemma round_Z_exact (z : Z) : Z.abs z <= 2 ^ 53 -> round_Z z = z.
Proof.
  assert ((2 ^ 53)%N = 9007199254740992%N) as HN by reflexivity.
  assert (2 ^ 53 = 9007199254740992) as HZ by reflexivity.
  intros Hz. rewrite HZ in Hz.
  destruct (decide (Z.abs z = 9007199254740992)) as [Htop|Hlt].
  - destruct z as [|p|p]; [done| |].
    + assert (p = 9007199254740992%positive) as -> by lia. reflexivity.
    + assert (p = 9007199254740992%positive) as -> by lia. reflexivity.
  - destruct z as [|p|p]; cbn [round_Z]; [done| |].
    + rewrite round_double_small by (rewrite HN; lia). lia.
    + rewrite round_double_small by (rewrite HN; lia). lia.
Qed.

(** Up to 2^53 the sum of the source is the sum of the integers. *)
Lemma js_add_exact (x y : Z) : Z.abs (x + y) <= 2 ^ 53 -> js_add x y = x + y.
Proof.
  intros Hxy. unfold js_add. destruct (Z.eqb_spec y 0) as [->|_]; [lia|].
  by apply round_Z_exact.
Qed.

(** At 2^53 a counter no longer grows. *)
Lemma js_add_top : js_add (2 ^ 53) 1 = 2 ^ 53.
Proof. reflexivity. Qed.

(** ** Answers *)

(** [handleAnswer] does nothing without a current question or after an
    answer; otherwise it throws exactly when the answer is correct and the
    current question has no record. *)
Lemma handleAnswer_TypeError allQuestions st idx :
  handleAnswer allQuestions st idx = TypeError <->
  exists q, currentQuestion allQuestions (session st) = Some q
    /\ hasAnswered st = false
    /\ chosenIsCorrect st idx = true
    /\ questionStates (session st) !! q_id q = None.
Proof.
  unfold handleAnswer, answerRecord.
  destruct (currentQuestion allQuestions (session st)) as [q|].
  - destruct (hasAnswered st).
    + split; [done | intros (? & _ & ? & _); done].
    + destruct (chosenIsCorrect st idx).
      * destruct (questionStates (session st) !! q_id q) as [r|] eqn:Hr.
        -- split; [done|]. intros (q' & [= <-] & _ & _ & Hn). congruence.
        -- split; [|done]. intros _. by exists q.
      * split; [done | intros (? & _ & _ & ? & _); done].
  - split; [done | intros (? & ? & _); done].
Qed.

(** The committed state of an evaluated answer. *)
Lemma handleAnswer_Ok allQuestions st idx q :
  currentQuestion allQuestions (session st) = Some q ->
  hasAnswered st = false ->
  forall nextQs,
    answerRecord (questionStates (session st) !! q_id q)
                 (chosenIsCorrect st idx) = Ok nextQs ->
    handleAnswer allQuestions st idx =
      Ok {| session :=
              {| questionStates :=
                   <[q_id q := nextQs]> (questionStates (session st));
                 currentQuestionId := currentQuestionId (session st) |};
            stats :=
              {| totalAnswers := js_add (totalAnswers (stats st)) 1;
                 correctAnswers :=
                   js_add (correctAnswers (stats st))
                          (if chosenIsCorrect st idx then 1 else 0) |};
            selectedIdx := Some idx;
            hasAnswered := true;
            displayedOptions := displayedOptions st |}.
Proof.
  intros Hq Hans nextQs Hnext. unfold handleAnswer.
  by rewrite Hq, Hans, Hnext.
Qed.

(** The new record of the answered question: the streak is 0 after a wrong
    answer and the streak of before plus 1 after a correct one, and the
    question is excluded exactly when the new streak is at least 5. *)
Lemma answerRecord_Ok qs correct nextQs :
  answerRecord qs correct = Ok nextQs ->
  (correct = false /\ consecutiveCorrect nextQs = 0
   \/ correct = true
      /\ exists r, qs = Some r
           /\ consecutiveCorrect nextQs = js_add (consecutiveCorrect r) 1)
  /\ (isExcluded nextQs = true <-> 5 <= consecutiveCorrect nextQs)
  /\ questionId nextQs = qs ≫= questionId.
Proof.
  unfold answerRecord. destruct correct.
  - destruct qs as [r|]; [|done]. intros [= <-]. cbn.
    split_and!; [right; eauto | | done].
    rewrite Z.leb_le. done.
  - intros [= <-]. cbn. split_and!; [by left | | done].
    split; [done | lia].
Qed.

(** With a record for the current question, an answer is always
    evaluated. *)
Lemma answerRecord_Some r correct :
  answerRecord (Some r) correct =
    Ok {| questionId := questionId r;
          consecutiveCorrect :=
            if correct then js_add (consecutiveCorrect r) 1 else 0;
          isExcluded :=
            correct
            && (5 <=? (if correct then js_add (consecutiveCorrect r) 1
                       else 0)) |}.
Proof. by destruct correct. Qed.

(** C7: [handleAnswer] leaves [currentQuestionId] and the record of every
    question other than the current one as they were; when it throws
    instead (a correct answer to a current question without a record), no
    state is committed. *)
Theorem handleAnswer_frame allQuestions st idx :
  match handleAnswer allQuestions st idx with
  | Ok st' =>
      currentQuestionId (session st') = currentQuestionId (session st)
      /\ forall i, currentQuestionId (session st) <> Some i ->
           questionStates (session st') !! i
           = questionStates (session st) !! i
  | TypeError =>
      exists q, currentQuestion allQuestions (session st) = Some q
        /\ hasAnswered st = false
        /\ chosenIsCorrect st idx = true
        /\ questionStates (session st) !! q_id q = None
  end.
Proof.
  destruct (handleAnswer allQuestions st idx) as [st'|] eqn:Hout;
    [|by apply handleAnswer_TypeError].
  unfold handleAnswer in Hout.
  destruct (currentQuestion allQuestions (session st)) as [q|] eqn:Hq;
    [|by injection Hout as <-].
  destruct (hasAnswered st); [by injection Hout as <-|].
  destruct (answerRecord _ _) as [nextQs|]; [|done].
  injection Hout as <-. cbn. split; [done|].
  intros i Hi. apply lookup_insert_ne.
  apply currentQuestion_Some in Hq as [Hid _]. congruence.
Qed.

(** ** The shuffle shows the options of the question *)

Lemma swap_Forall {A} (P : A -> Prop) (l : list A) i j :
  Forall P l -> Forall P (swap l i j).
Proof.
  intros Hl. unfold swap.
  destruct (l !! i) as [a|] eqn:Ha; [|done].
  destruct (l !! j) as [b|] eqn:Hb; [|done].
  apply Forall_insert; [apply Forall_insert; [done|]|].
  - by eapply Forall_lookup_1.
  - by eapply Forall_lookup_1.
Qed.

Lemma shuffle_Forall {A} (P : A -> Prop) draws (l : list A) :
  Forall P l -> Forall P (shuffle draws l).
Proof.
  unfold shuffle. generalize (length l - 1)%nat as i. intros i. revert l.
  induction i as [|i IH]; intros l Hl; [done|].
  cbn [shuffle_from]. by apply IH, swap_Forall.
Qed.

Lemma handle_displayedOptions allQuestions st e st' :
  handle allQuestions st e = Ok st' ->
  displayedOptions st' = displayedOptions st.
Proof.
  destruct e as [rnd|idx|rnd|rnd|]; cbn; try by intros [= <-].
  - unfold handleAnswer.
    destruct (currentQuestion allQuestions (session st));
      [|by intros [= <-]].
    destruct (hasAnswered st); [by intros [= <-]|].
    destruct (answerRecord _ _); [by intros [= <-] | done].
  - unfold handleNext.
    destruct (currentQuestion allQuestions (session st)); by intros [= <-].
Qed.

Lemma displayed_ok_rerender allQuestions draws old new :
  displayed_ok allQuestions old ->
  displayedOptions new = displayedOptions old ->
  displayed_ok allQuestions (rerender allQuestions draws old new).
Proof.
  unfold displayed_ok, rerender. cbn. intros Hold Hsame.
  destruct (currentQuestion allQuestions (session new)) as [qn|] eqn:Hn;
    destruct (currentQuestion allQuestions (session old)) as [qo|] eqn:Ho;
    cbn; try case_decide; try done; try (eexists; reflexivity).
  - assert (qn = qo) as ->; [|by rewrite Hsame].
    apply currentQuestion_Some in Hn as Hn'. destruct Hn' as [Hn' _].
    apply currentQuestion_Some in Ho as Ho'. destruct Ho' as [Ho' _].
    unfold currentQuestion in Hn, Ho. rewrite Hn' in Hn. rewrite Ho' in Ho.
    assert (q_id qn = q_id qo) as Hid by congruence.
    rewrite Hid in Hn. congruence.
  - by rewrite Hsame.
Qed.

(** In every state that the handlers reach, the options on the screen are
    those of the current question, in some order of the shuffle. *)
Lemma reachable_displayed allQuestions st :
  reachable allQuestions st -> displayed_ok allQuestions st.
Proof.
  induction 1 as [|st e draws st' _ IH Hstep].
  - unfold displayed_ok.
    destruct (currentQuestion _ _) as [q|] eqn:Hq; [|done].
    apply currentQuestion_Some in Hq as [Hq _].
    unfold initial, initializeStates in Hq. cbn in Hq.
    by destruct (length allQuestions =? 0)%nat.
  - unfold step in Hstep.
    destruct (handle allQuestions st e) as [st1|] eqn:Hh; [|done].
    injection Hstep as <-.
    apply displayed_ok_rerender; [done|]. by eapply handle_displayedOptions.
Qed.

(** C9: when no option of the current question is correct, an answer with
    any index, in range or not, is evaluated without failure: it counts as
    an answer (one more than before, below 2^53 answers) but not as a
    correct one, and the streak of the question is 0 afterwards (and the
    question is not excluded). *)
Theorem all_wrong_answer allQuestions st q draws idx :
  currentQuestion allQuestions (session st) = Some q ->
  hasAnswered st = false ->
  displayedOptions st = shuffle draws (options q) ->
  Forall (fun o => isCorrect o = false) (options q) ->
  exists st',
    handleAnswer allQuestions st idx = Ok st'
    /\ (Z.abs (totalAnswers (stats st)) < 2 ^ 53 ->
          totalAnswers (stats st') = totalAnswers (stats st) + 1)
    /\ correctAnswers (stats st') = correctAnswers (stats st)
    /\ exists r, questionStates (session st') !! q_id q = Some r
         /\ consecutiveCorrect r = 0 /\ isExcluded r = false.
Proof.
  intros Hq Hans Hshown Hwrong.
  assert (chosenIsCorrect st idx = false) as Hc.
  { unfold chosenIsCorrect.
    destruct (displayedOptions st !! idx) as [o|] eqn:Ho; [|done].
    rewrite Hshown in Ho.
    eapply (Forall_lookup_1 _ _ _ _ (shuffle_Forall _ draws _ Hwrong) Ho). }
  eexists. split.
  { eapply handleAnswer_Ok; [done..|]. rewrite Hc. reflexivity. }
  cbn. rewrite Hc. split_and!; [ | done |].
  - intros Hlt. apply js_add_exact. lia.
  - eexists. rewrite lookup_insert_eq. done.
Qed.

Lemma all_wrong_answer_witness :
  exists st',
    handleAnswer [no_star] no_star_shown 7 = Ok st'
    /\ totalAnswers (stats st') = 10
    /\ correctAnswers (stats st') = 4
    /\ exists r, questionStates (session st') !! Fin 3 = Some r
         /\ consecutiveCorrect r = 0 /\ isExcluded r = false.
Proof.
  destruct (all_wrong_answer [no_star] no_star_shown no_star
              (fun _ => 0%nat) 7)
    as (st' & Hout & Htotal & Hcorrect & Hrec).
  - reflexivity.
  - reflexivity.
  - reflexivity.
  - repeat constructor.
  - exists st'. split_and!; [exact Hout | | exact Hcorrect | exact Hrec].
    apply Htotal. cbn. lia.
Defined.

(** ** Calls out of turn *)

Lemma rerender_same allQuestions draws st :
  rerender allQuestions draws st st = st.
Proof.
  destruct st. unfold rerender. cbn. by rewrite !decide_True by done.
Qed.

(** C8, as stated, fails for a start: the handler of the start buttons has
    no test.  After a reset and a start, the final screen still offers its
    start button (no record is counted as active) while question 1 is
    current, and a second start draws again. *)
Lemma start_not_rejected :
  ~ (forall allQuestions draws st rnd,
       reachable allQuestions st ->
       startOffered st = true ->
       is_Some (currentQuestion allQuestions (session st)) ->
       step allQuestions draws st (Start rnd) = Ok st).
Proof.
  intros H.
  pose (st := match run bank12 (fun i => i) (initial bank12)
                      [Reset; Start 0] with
              | Ok st => st
              | TypeError => initial bank12
              end).
  assert (reachable bank12 st) as Hst.
  { apply (reachable_run bank12 (fun i => i) [Reset; Start 0]
             (initial bank12));
      [apply reachable_initial | vm_compute; reflexivity]. }
  specialize (H bank12 (fun i => i) st 1%nat Hst
                ltac:(vm_compute; reflexivity) ltac:(vm_compute; eauto)).
  apply (f_equal (fun o => match o with
                           | Ok st' => currentQuestionId (session st')
                           | TypeError => None
                           end)) in H.
  vm_compute in H. discriminate.
Qed.

(** C8, amended: an answer after the current presentation was answered, an
    answer or an advance without a current question leave the whole state
    as it is.  A start has no such test: it keeps the progress records and
    the statistics and sets [currentQuestionId] to the result of
    [pickNextQuestionId]; its buttons are offered only when
    [currentQuestionId] is falsy or no active record is counted. *)
Theorem calls_out_of_turn allQuestions draws st idx rnd :
  (hasAnswered st = true ->
     step allQuestions draws st (Answer idx) = Ok st)
  /\ (currentQuestion allQuestions (session st) = None ->
        step allQuestions draws st (Answer idx) = Ok st
        /\ step allQuestions draws st (Next rnd) = Ok st)
  /\ (exists st', step allQuestions draws st (Start rnd) = Ok st'
        /\ questionStates (session st') = questionStates (session st)
        /\ stats st' = stats st
        /\ currentQuestionId (session st')
           = pickNextQuestionId allQuestions (questionStates (session st)) rnd)
  /\ (startButtonShown st = true -> startOffered st = true)
  /\ (startOffered st = true ->
        falsy_id (currentQuestionId (session st)) = true
        \/ activeCount (session st) = 0%nat).
Proof.
  split_and!.
  - intros Hans. unfold step, handle, handleAnswer.
    destruct (currentQuestion _ _); rewrite ?Hans, rerender_same; done.
  - intros Hnone. unfold step, handle, handleAnswer, handleNext.
    by rewrite Hnone, rerender_same.
  - eexists. split; [reflexivity|]. done.
  - unfold startButtonShown. by intros [? _]%andb_true_iff.
  - unfold startOffered, isFinished.
    intros [?|?%Nat.eqb_eq]%orb_true_iff; auto.
Qed.

Lemma calls_out_of_turn_witness :
  step [no_star] (fun i => i) no_star_answered (Answer 2) = Ok no_star_answered
  /\ step [no_star] (fun i => i) (initial [no_star]) (Next 0)
     = Ok (initial [no_star]).
Proof.
  split.
  - apply (proj1 (calls_out_of_turn [no_star] (fun i => i)
                    no_star_answered 2 0)).
    reflexivity.
  - apply (proj1 (proj2 (calls_out_of_turn [no_star] (fun i => i)
                           (initial [no_star]) 0 0))).
    reflexivity.
Defined.

(** ** Streaks in the states the handlers reach *)

Lemma initializeStates_lookup allQuestions (prev : SessionState) i r :
  questionStates (initializeStates allQuestions prev) !! i = Some r ->
  questionStates prev !! i = Some r
  \/ exists q, q ∈ allQuestions /\ r = freshRecord q.
Proof.
  unfold initializeStates.
  destruct (length allQuestions =? 0)%nat; [by left|]. cbn.
  generalize (questionStates prev) as m.
  induction allQuestions as [|q qs IH]; intros m Hm; [by left|].
  cbn [foldl] in Hm. apply IH in Hm as [Hm|(q' & Hq' & ->)].
  - destruct (m !! q_id q) eqn:Hq; [by left|].
    destruct (decide (q_id q = i)) as [<-|Hne].
    + rewrite lookup_insert_eq in Hm. injection Hm as <-.
      right. exists q. split; [apply list_elem_of_here | done].
    + rewrite lookup_insert_ne in Hm by done. by left.
  - right. exists q'. split; [by apply list_elem_of_further | done].
Qed.

Lemma engine_inv_initial allQuestions :
  engine_inv allQuestions (initial allQuestions).
Proof.
  split.
  - intros i r [Hr|(q & _ & ->)]%initializeStates_lookup; [done|].
    unfold record_ok. cbn. split; [lia|]. split; [done|lia].
  - intros q r Hq. apply currentQuestion_Some in Hq as [Hq _].
    unfold initial, initializeStates in Hq. cbn in Hq.
    by destruct (length allQuestions =? 0)%nat.
Qed.

Lemma engine_inv_advance allQuestions draws st rnd :
  engine_inv allQuestions st ->
  engine_inv allQuestions
    (rerender allQuestions draws st (advance allQuestions st rnd)).
Proof.
  intros [Hrec Hcur]. split; [exact Hrec|].
  intros q r Hq Hr He. exfalso. cbn in Hq, Hr.
  apply currentQuestion_Some in Hq as [Hq _]. cbn in Hq.
  apply pickNext_Some in Hq as (q' & [_ Hq']%elem_of_candidates & Hid).
  apply not_excluded_true in Hq'. rewrite Hid in Hq'.
  destruct Hq' as [Hn|(r' & Hr' & He')]; congruence.
Qed.

Lemma engine_inv_answer allQuestions draws st idx st' :
  engine_inv allQuestions st ->
  handleAnswer allQuestions st idx = Ok st' ->
  engine_inv allQuestions (rerender allQuestions draws st st').
Proof.
  intros Hinv Hout. unfold handleAnswer in Hout.
  destruct (currentQuestion allQuestions (session st)) as [q|] eqn:Hq;
    [|injection Hout as <-; by rewrite rerender_same].
  destruct (hasAnswered st) eqn:Hans;
    [injection Hout as <-; by rewrite rerender_same|].
  destruct (answerRecord _ _) as [nextQs|] eqn:Hnext; [|done].
  injection Hout as <-. destruct Hinv as [Hrec Hcur]. split.
  - intros i r. cbn. destruct (decide (q_id q = i)) as [<-|Hne].
    + rewrite lookup_insert_eq. intros [= <-].
      apply answerRecord_Ok in Hnext as (Hcc & Hex & _).
      unfold record_ok. rewrite Hex.
      destruct Hcc as [[_ ->]|(_ & r0 & Hr0 & ->)]; [lia|].
      destruct (Hrec _ _ Hr0) as [Hrange Hfive].
      assert (isExcluded r0 <> true) as Hne.
      { intros He. specialize (Hcur q r0 Hq Hr0 He). congruence. }
      rewrite Hfive in Hne. rewrite js_add_exact by lia. lia.
    + rewrite lookup_insert_ne by done. apply Hrec.
  - intros _ _ _ _ _. cbn. by rewrite decide_True.
Qed.

Lemma engine_inv_step allQuestions draws st e st' :
  engine_inv allQuestions st ->
  step allQuestions draws st e = Ok st' ->
  engine_inv allQuestions st'.
Proof.
  intros Hinv. unfold step.
  destruct (handle allQuestions st e) as [st1|] eqn:Hh; [|done].
  intros [= <-]. destruct e as [rnd|idx|rnd|rnd|]; cbn in Hh.
  - injection Hh as <-. by apply engine_inv_advance.
  - by eapply engine_inv_answer.
  - injection Hh as <-. unfold handleNext.
    destruct (currentQuestion allQuestions (session st));
      [by apply engine_inv_advance | by rewrite rerender_same].
  - injection Hh as <-. by apply engine_inv_advance.
  - injection Hh as <-. split.
    + intros i r. cbn. by rewrite lookup_empty.
    + intros q r Hq. by apply currentQuestion_Some in Hq as [Hq _].
Qed.

Lemma reachable_engine_inv allQuestions st :
  reachable allQuestions st -> engine_inv allQuestions st.
Proof.
  induction 1 as [|st e draws st' _ IH Hstep];
    [apply engine_inv_initial | by eapply engine_inv_step].
Qed.

(** In every state that the handlers reach from the initial state, every
    streak lies between 0 and 5, and a question is excluded exactly when
    its streak is 5. *)
Lemma reachable_streak_bounds allQuestions st :
  reachable allQuestions st ->
  forall i r, questionStates (session st) !! i = Some r ->
    0 <= consecutiveCorrect r <= 5
    /\ (isExcluded r = true <-> consecutiveCorrect r = 5).
Proof.
  intros Hreach. by destruct (reachable_engine_inv _ _ Hreach) as [Hrec _].
Qed.

Lemma reachable_streak_bounds_witness :
  0 <= consecutiveCorrect (mkQuestionState (Some (Fin 1)) 5 true) <= 5
  /\ (isExcluded (mkQuestionState (Some (Fin 1)) 5 true) = true <->
      consecutiveCorrect (mkQuestionState (Some (Fin 1)) 5 true) = 5).
Proof.
  assert (reachable bank12 after_five) as Hreach.
  { apply (reachable_run bank12 (fun i => i) five_correct (initial bank12));
      [apply reachable_initial | vm_compute; reflexivity]. }
  apply (reachable_streak_bounds bank12 after_five Hreach (Fin 1)).
  vm_compute. reflexivity.
Defined.

(** Short of a reset, no handler changes the record of an excluded
    question. *)
Lemma excluded_stays allQuestions draws st e st' i r :
  reachable allQuestions st ->
  e <> Reset ->
  step allQuestions draws st e = Ok st' ->
  questionStates (session st) !! i = Some r ->
  isExcluded r = true ->
  questionStates (session st') !! i = Some r.
Proof.
  intros Hreach Hne Hstep Hr He.
  assert (engine_inv allQuestions st) as Hinv by by apply reachable_engine_inv.
  unfold step in Hstep.
  destruct (handle allQuestions st e) as [st1|] eqn:Hh; [|done].
  injection Hstep as <-. cbn.
  destruct e as [rnd|idx|rnd|rnd|]; cbn in Hh; [| | | |done].
  - by injection Hh as <-.
  - unfold handleAnswer in Hh.
    destruct (currentQuestion allQuestions (session st)) as [q|] eqn:Hq;
      [|by injection Hh as <-].
    destruct (hasAnswered st) eqn:Hans; [by injection Hh as <-|].
    destruct (answerRecord _ _) as [nextQs|]; [|done].
    injection Hh as <-. cbn. rewrite lookup_insert_ne; [done|].
    intros <-. destruct Hinv as [_ Hcur].
    specialize (Hcur q r Hq Hr He). congruence.
  - injection Hh as <-. unfold handleNext.
    by destruct (currentQuestion allQuestions (session st)).
  - by injection Hh as <-.
Qed.

Lemma excluded_stays_witness :
  questionStates
    (session (rerender bank12 (fun i => i) after_five
                (handleNext bank12 after_five 0))) !! Fin 1
  = Some (mkQuestionState (Some (Fin 1)) 5 true).
Proof.
  apply (excluded_stays bank12 (fun i => i) after_five (Next 0)).
  - apply (reachable_run bank12 (fun i => i) five_correct (initial bank12));
      [apply reachable_initial | vm_compute; reflexivity].
  - discriminate.
  - reflexivity.
  - vm_compute. reflexivity.
  - reflexivity.
Defined.

(** The run of [five_correct]: the streak of question 1 goes from 1 to 5,
    the exclusion comes with the fifth correct answer, and the next draw
    is question 2. *)
Example five_in_a_row :
  (forall n r st,
     (n < 5)%nat ->
     run bank12 (fun i => i) (initial bank12) (take (4 * n + 2) five_correct)
       = Ok st ->
     questionStates (session st) !! Fin 1 = Some r ->
     consecutiveCorrect r = Z.of_nat (S n)
     /\ isExcluded r = bool_decide (n = 4%nat))
  /\ forall rnd st,
       run bank12 (fun i => i) (initial bank12) (five_correct ++ [Next rnd])
         = Ok st ->
       currentQuestionId (session st) = Some (Fin 2).
Proof.
  split.
  - intros n r st Hn.
    destruct n as [|[|[|[|[|n]]]]]; [| | | | |lia];
      vm_compute; intros [= <-] [= <-]; done.
  - intros rnd st. cbn [five_correct app]. cbn [run].
    destruct rnd as [|rnd].
    + vm_compute. by intros [= <-].
    + change (S rnd) with (1 + rnd)%nat.
      vm_compute. by intros [= <-].
Qed.

(** With a record for the current question whose streak is below 2^53 in
    magnitude, an answer is evaluated: the streak becomes one more than
    before after a correct answer and 0 after a wrong one, and the question
    is excluded exactly when the new streak is at least 5. *)
Lemma handleAnswer_streak allQuestions st idx q r :
  currentQuestion allQuestions (session st) = Some q ->
  hasAnswered st = false ->
  questionStates (session st) !! q_id q = Some r ->
  Z.abs (consecutiveCorrect r) < 2 ^ 53 ->
  exists st' r',
    handleAnswer allQuestions st idx = Ok st'
    /\ questionStates (session st') !! q_id q = Some r'
    /\ consecutiveCorrect r'
       = (if chosenIsCorrect st idx then consecutiveCorrect r + 1 else 0)
    /\ (isExcluded r' = true <-> 5 <= consecutiveCorrect r').
Proof.
  intros Hq Hans Hr Hlt. eexists _, _. split_and!.
  - eapply handleAnswer_Ok; [done..|]. rewrite Hr. apply answerRecord_Some.
  - cbn. apply lookup_insert_eq.
  - cbn. destruct (chosenIsCorrect st idx); [|done].
    apply js_add_exact. lia.
  - cbn. destruct (chosenIsCorrect st idx); cbn; [apply Z.leb_le|].
    split; [done|lia].
Qed.

Lemma handleAnswer_streak_witness :
  exists st' r',
    handleAnswer bank12 one_shown 0 = Ok st'
    /\ questionStates (session st') !! Fin 1 = Some r'
    /\ consecutiveCorrect r' = 1
    /\ (isExcluded r' = true <-> 5 <= consecutiveCorrect r').
Proof.
  apply (handleAnswer_streak bank12 one_shown 0 question_one
           (mkQuestionState (Some (Fin 1)) 0 false));
    [reflexivity | reflexivity | reflexivity | cbn; lia].
Defined.

(** C1: after a reset and a new start the current question has no progress
    record, and a correct answer to it throws a [TypeError] where the streak
    should become 1: no state follows the answer. *)
Theorem correct_answer_after_reset :
  exists st,
    run [sky_question] (fun i => i) (initial [sky_question])
        [Reset; Start 0] = Ok st
    /\ reachable [sky_question] st
    /\ currentQuestion [sky_question] (session st) = Some sky_question
    /\ hasAnswered st = false
    /\ questionStates (session st) !! q_id sky_question = None
    /\ chosenIsCorrect st 0 = true
    /\ handleAnswer [sky_question] st 0 = TypeError
    /\ run [sky_question] (fun i => i) (initial [sky_question])
           [Reset; Start 0; Answer 0] = TypeError.
Proof.
  eexists. split; [reflexivity|]. split_and!; try (vm_compute; reflexivity).
  eapply reachable_step with (e := Start 0) (draws := fun i => i);
    [|reflexivity].
  eapply reachable_step with (e := Reset) (draws := fun i => i);
    [constructor | reflexivity].
Qed.

End Engine.

(** * More on the parser *)

Section ParserShape.

(** ** What a match is *)

Lemma match_atom_sound {R} (k : cclass) (s : jsstring) :
  forall lo hi taken (cont : jsstring -> jsstring -> option R) r,
    match_atom k lo hi s taken cont = Some r ->
    exists seg rest,
      s = seg ++ rest
      /\ Forall (fun c => in_class k c = true) seg
      /\ (lo <= length seg)%nat
      /\ (forall n, hi = Some n -> (length seg <= n)%nat)
      /\ cont (reverse taken ++ seg) rest = Some r.
Proof.
  induction s as [|c s IH]; intros lo hi taken cont r; cbn [match_atom].
  - destruct lo; [|done]. intros Hc. exists [], [].
    rewrite !app_nil_r.
    split_and!; [done | done | done | intros; cbn; lia | done].
  - assert (Hstop : match lo with
                    | O => cont (reverse taken) (c :: s)
                    | S _ => None
                    end = Some r ->
            exists seg rest,
              c :: s = seg ++ rest
              /\ Forall (fun c => in_class k c = true) seg
              /\ (lo <= length seg)%nat
              /\ (forall n, hi = Some n -> (length seg <= n)%nat)
              /\ cont (reverse taken ++ seg) rest = Some r).
    { destruct lo; [|done]. intros Hc. exists [], (c :: s).
      rewrite !app_nil_r.
      split_and!; [done | done | done | intros; cbn; lia | done]. }
    destruct (in_class k c && may_repeat hi) eqn:Hcond; [|exact Hstop].
    destruct (match_atom k (Nat.pred lo) (dec_max hi) s (c :: taken) cont)
      as [r'|] eqn:Hrec; [|exact Hstop].
    intros [= <-]. apply andb_true_iff in Hcond as [Hin Hrep].
    destruct (IH _ _ _ _ _ Hrec) as (seg & rest & -> & Hseg & Hlo & Hhi & Hc).
    exists (c :: seg), rest. split_and!.
    + done.
    + by constructor.
    + cbn. lia.
    + intros n ->. destruct n as [|n]; [done|].
      specialize (Hhi n eq_refl). cbn. lia.
    + by rewrite reverse_cons, <- app_assoc in Hc.
Qed.

(** A match splits the input into the texts of the atoms, in order, and
    the rest. *)
Lemma match_re_sound (re : regex) :
  forall s segs rest,
    match_re re s = Some (segs, rest) ->
    s = concat segs ++ rest /\ Forall2 atom_matches re segs.
Proof.
  induction re as [|a re IH]; intros s segs rest; cbn [match_re].
  - intros [= <- <-]. split; [done | constructor].
  - intros (seg & rest1 & -> & Hseg & Hlo & Hhi & Hc)%match_atom_sound.
    rewrite reverse_nil, app_nil_l in Hc.
    destruct (match_re re rest1) as [[segs1 r1]|] eqn:Hre; [|done].
    injection Hc as <- <-. destruct (IH _ _ _ Hre) as [-> Hall].
    split; [by rewrite concat_cons, <- app_assoc|].
    constructor; [done | done].
Qed.

Lemma match_atom_greedy {R} (k : cclass) (s : jsstring) :
  forall lo hi taken (cont : jsstring -> jsstring -> option R) r,
    (lo <= length (greedy k hi s).1)%nat ->
    cont (reverse taken ++ (greedy k hi s).1) (greedy k hi s).2 = Some r ->
    match_atom k lo hi s taken cont = Some r.
Proof.
  induction s as [|c s IH]; intros lo hi taken cont r;
    cbn [match_atom greedy].
  - cbn. intros Hlo. assert (lo = 0%nat) as -> by lia.
    by rewrite app_nil_r.
  - destruct (in_class k c && may_repeat hi).
    + destruct (greedy k (dec_max hi) s) as [a b] eqn:Hg. cbn.
      intros Hlo Hc.
      assert (match_atom k (Nat.pred lo) (dec_max hi) s (c :: taken) cont
              = Some r) as ->; [|done].
      apply IH; rewrite Hg; cbn [fst snd]; [lia|].
      by rewrite reverse_cons, <- app_assoc.
    + cbn. intros Hlo. assert (lo = 0%nat) as -> by lia.
      by rewrite app_nil_r.
Qed.

(** When every atom can take its longest run, this is the match. *)
Lemma match_re_greedy (re : regex) :
  forall s x, greedy_re re s = Some x -> match_re re s = Some x.
Proof.
  induction re as [|a re IH]; intros s x; cbn [greedy_re match_re]; [done|].
  destruct (greedy (cls a) (rmax a) s) as [seg rest] eqn:Hg.
  destruct (Nat.leb_spec (rmin a) (length seg)) as [Hlo|]; [|done].
  destruct (greedy_re re rest) as [[segs r]|] eqn:Hre; [|done].
  intros [= <-]. apply match_atom_greedy; rewrite Hg; cbn; [done|].
  by rewrite (IH _ _ Hre).
Qed.

Lemma greedy_none (k : cclass) (s : jsstring) :
  greedy k (Some 0%nat) s = ([], s).
Proof. destruct s; cbn; [done|]. by rewrite andb_false_r. Qed.

(** The longest run of an unbounded atom in front of a character that is
    not of its class. *)
Lemma greedy_span (k : cclass) (seg s : jsstring) :
  Forall (fun c => in_class k c = true) seg ->
  match s with c :: _ => in_class k c = false | [] => True end ->
  greedy k None (seg ++ s) = (seg, s).
Proof.
  intros Hseg Hs.
  induction Hseg as [|c seg Hc _ IH]; cbn [app greedy dec_max may_repeat].
  - destruct s as [|c s]; [done|]. cbn [greedy]. by rewrite Hs.
  - rewrite Hc. cbn [andb]. by rewrite IH.
Qed.

Lemma greedy_space (s : jsstring) :
  (greedy CSpace None s).2 = trimStart s
  /\ Forall (fun c => is_space c = true) (greedy CSpace None s).1.
Proof.
  induction s as [|c s [IH1 IH2]];
    cbn [greedy trimStart in_class dec_max may_repeat]; [by split|].
  destruct (is_space c) eqn:Hc; cbn [andb]; [|by split].
  destruct (greedy CSpace None s) as [a b]. cbn [fst snd] in *.
  split; [done | by constructor].
Qed.

(** ** Options *)

(** An option line that starts with a star is a correct option, stored
    without the star and the blanks after it; any other line is a wrong
    option, stored as it is. *)
Theorem parse_option_marker (idx : nat) (line : jsstring) :
  parse_option idx line =
    match line with
    | c :: rest =>
        if (c =? 42)%N then mkOption idx (trimStart rest) true
        else mkOption idx line false
    | [] => mkOption idx [] false
    end.
Proof.
  unfold parse_option, test, replace_empty.
  destruct line as [|c rest]; [done|].
  destruct (N.eqb_spec c 42) as [->|Hc].
  - rewrite (match_re_greedy re_marker (42%N :: rest)
               ([[42%N]; (greedy CSpace None rest).1], trimStart rest));
      [done|].
    cbn. rewrite greedy_none. cbn.
    destruct (greedy CSpace None rest) as [a b] eqn:Hg.
    pose proof (greedy_space rest) as [Hb _]. rewrite Hg in Hb. cbn in Hb.
    by rewrite Hb.
  - cbn. apply N.eqb_neq in Hc. by rewrite Hc.
Qed.

(** ** Question lines *)

Lemma is_space_not_digit (c : N) : is_space c = true -> is_digit c = false.
Proof.
  unfold is_space, is_digit.
  rewrite !orb_true_iff, !andb_true_iff, andb_false_iff, !N.leb_le,
    !N.eqb_eq, !N.leb_gt.
  lia.
Qed.

Lemma trimStart_no_leading_space (s : jsstring) :
  no_leading_space (trimStart s).
Proof.
  induction s as [|c s IH]; cbn [trimStart]; [done|].
  by destruct (is_space c) eqn:Hc.
Qed.

Lemma trimStart_id (s : jsstring) : no_leading_space s -> trimStart s = s.
Proof. destruct s as [|c s]; cbn; [done|]. by intros ->. Qed.

Lemma trim_trimStart (s : jsstring) : trim (trimStart s) = trim s.
Proof.
  unfold trim.
  by rewrite (trimStart_id (trimStart s)) by apply trimStart_no_leading_space.
Qed.

(** Stripping blanks at the front does not change how a text ends. *)
Lemma trimStart_keeps_end (s : jsstring) :
  no_leading_space (reverse s) -> no_leading_space (reverse (trimStart s)).
Proof.
  induction s as [|c s IH]; cbn [trimStart]; [done|].
  destruct (is_space c) eqn:Hc; [|done].
  rewrite reverse_cons. intros Hend. apply IH.
  destruct (reverse s) as [|d t]; [|done]. cbn in Hend. congruence.
Qed.

(** [trim] leaves no blank at either end. *)
Lemma trim_no_space (s : jsstring) :
  no_leading_space (trim s) /\ no_leading_space (reverse (trim s)).
Proof.
  unfold trim. split.
  - apply trimStart_keeps_end. rewrite reverse_involutive.
    apply trimStart_no_leading_space.
  - rewrite reverse_involutive. apply trimStart_no_leading_space.
Qed.

(** On a line that starts with digits, blanks and a period, the prefix that
    [replace] removes is all of these and the blanks after the period. *)
Lemma replace_prefix (digits ws rest : jsstring) :
  Forall (fun c => is_digit c = true) digits ->
  digits <> [] ->
  Forall (fun c => is_space c = true) ws ->
  replace_empty re_prefix (digits ++ ws ++ 46%N :: rest) = trimStart rest.
Proof.
  intros Hd Hne Hw. unfold replace_empty.
  rewrite (match_re_greedy re_prefix _
             ([digits; ws; [46%N]; (greedy CSpace None rest).1],
              trimStart rest)); [done|].
  unfold re_prefix. cbn [greedy_re plus star opt cls rmin rmax].
  rewrite (greedy_span CDigit digits (ws ++ 46%N :: rest) Hd).
  2:{ destruct Hw as [|c ws Hc _]; cbn; [done|]. by apply is_space_not_digit. }
  destruct digits as [|d0 digits]; [done|]. cbn [length Nat.leb].
  rewrite (greedy_span CSpace ws (46%N :: rest) Hw) by done.
  cbn [Nat.leb greedy in_class may_repeat dec_max].
  rewrite N.eqb_refl. cbn [andb]. rewrite greedy_none. cbn [length Nat.leb].
  destruct (greedy CSpace None rest) as [a b] eqn:Hg.
  pose proof (greedy_space rest) as [Hb _]. rewrite Hg in Hb.
  cbn [fst snd] in *. by rewrite Hb.
Qed.

Lemma filter_Forall_id {A} (P : A -> Prop) `{!forall x, Decision (P x)}
    (l : list A) :
  Forall P l -> filter P l = l.
Proof.
  induction 1 as [|x l Hx _ IH]; [done|].
  by rewrite filter_cons_True, IH.
Qed.

Lemma block_lines_nonempty (block : jsstring) :
  Forall (fun l => nonempty l) (block_lines block).
Proof.
  apply Forall_forall. intros l Hl. unfold block_lines in Hl.
  by apply list_elem_of_filter in Hl as [Hl _].
Qed.

(** How a block becomes a question: the question line is one of the first
    four lines, made of digits, blanks, a period and the text; the id is
    the number of the digits, the text is trimmed, and the three options
    are read from the three lines that follow. *)
Theorem parse_block_shape (block : jsstring) (q : Question) :
  parse_block block = Some q ->
  exists i digits ws rest l1 l2 l3,
    (i <= 3)%nat
    /\ block_lines block !! i = Some (digits ++ ws ++ 46%N :: rest)
    /\ digits <> []
    /\ Forall (fun c => is_digit c = true) digits
    /\ Forall (fun c => is_space c = true) ws
    /\ block_lines block !! (i + 1)%nat = Some l1
    /\ block_lines block !! (i + 2)%nat = Some l2
    /\ block_lines block !! (i + 3)%nat = Some l3
    /\ q = {| q_id := Number digits;
              q_text := trim rest;
              options := [ parse_option 0 l1; parse_option 1 l2;
                           parse_option 2 l3 ] |}.
Proof.
  unfold parse_block.
  pose proof (block_lines_nonempty block) as Hne.
  set (lines := block_lines block) in *.
  destruct (Nat.ltb_spec (length lines) 4) as [|Hlen]; [done|].
  destruct (questionLineIndex_window _ Hlen) as (Hle & _ & _).
  set (qi := questionLineIndex lines) in *.
  destruct (length lines <=? qi)%nat; [done|].
  destruct (lines !! qi) as [l|] eqn:Hl; [|done].
  destruct (match_re re_question l) as [[segs rest]|] eqn:Hm; [|done].
  apply match_re_sound in Hm as [Hcat Hall].
  unfold re_question in Hall.
  apply Forall2_cons_inv_l in Hall as (d & segs1 & Hd & Hall & ->).
  apply Forall2_cons_inv_l in Hall as (w & segs2 & Hw & Hall & ->).
  apply Forall2_cons_inv_l in Hall as (p & segs3 & Hp & Hall & ->).
  apply Forall2_nil_inv_l in Hall as ->.
  destruct Hd as (Hd & Hdlen & _). destruct Hw as (Hw & _ & _).
  destruct Hp as (Hp & Hp1 & Hp2). specialize (Hp2 1%nat eq_refl).
  cbn in Hd, Hdlen, Hw, Hp, Hp1.
  destruct p as [|c [|c' p]]; cbn in Hp1, Hp2; [lia | | lia].
  apply Forall_cons_1 in Hp as [Hc%N.eqb_eq _]. subst c.
  cbn in Hcat. rewrite <- !app_assoc in Hcat. cbn [app] in Hcat. subst l.
  rewrite (filter_Forall_id _ (drop (S qi) lines))
    by by apply Forall_drop.
  destruct (drop (S qi) lines) as [|l1 [|l2 [|l3 tl]]] eqn:Hdrop;
    cbn [take length Nat.eqb]; try done.
  intros [= <-].
  assert (forall n x, drop (S qi) lines !! n = Some x ->
                      lines !! (qi + S n)%nat = Some x) as Hat.
  { intros n x Hx. rewrite lookup_drop in Hx.
    by replace (qi + S n)%nat with (S qi + n)%nat by lia. }
  exists qi, d, w, rest, l1, l2, l3.
  split_and!; try done.
  - intros ->. cbn in Hdlen. lia.
  - apply (Hat 0%nat). by rewrite Hdrop.
  - apply (Hat 1%nat). by rewrite Hdrop.
  - apply (Hat 2%nat). by rewrite Hdrop.
  - cbn [head default imap]. f_equal.
    rewrite replace_prefix; [apply trim_trimStart | done | | done].
    intros ->. cbn in Hdlen. lia.
Qed.

Lemma parse_block_shape_witness :
  exists i digits ws rest l1 l2 l3,
    (i <= 3)%nat
    /\ block_lines late_question !! i = Some (digits ++ ws ++ 46%N :: rest)
    /\ digits <> []
    /\ Forall (fun c => is_digit c = true) digits
    /\ Forall (fun c => is_space c = true) ws
    /\ block_lines late_question !! (i + 1)%nat = Some l1
    /\ block_lines late_question !! (i + 2)%nat = Some l2
    /\ block_lines late_question !! (i + 3)%nat = Some l3
    /\ {| q_id := Fin 4;
          q_text := units "Which way is up?";
          options := [ mkOption 0 (units "north") true;
                       mkOption 1 (units "south") false;
                       mkOption 2 (units "east") false ] |}
       = {| q_id := Number digits;
            q_text := trim rest;
            options := [ parse_option 0 l1; parse_option 1 l2;
                         parse_option 2 l3 ] |}.
Proof.
  apply (parse_block_shape late_question). vm_compute. reflexivity.
Defined.

(** The question of a block is read from the first of the first four
    lines of the block that matches the pattern of a question line: no line
    before it matches, the digits at its start give the id, what follows
    the period is the text, and the three lines after it give the
    options. *)
Theorem parse_block_question_line (block : jsstring) (q : Question) :
  parse_block block = Some q ->
  exists i l digits ws rest,
    (i <= 3)%nat
    /\ block_lines block !! i = Some l
    /\ test re_question l = true
    /\ (forall j l', (j < i)%nat -> block_lines block !! j = Some l' ->
          test re_question l' = false)
    /\ l = digits ++ ws ++ 46%N :: rest
    /\ digits <> []
    /\ Forall (fun c => is_digit c = true) digits
    /\ Forall (fun c => is_space c = true) ws
    /\ q_id q = Number digits
    /\ q_text q = trim rest
    /\ options q
       = imap parse_option (take 3 (drop (S i) (block_lines block)))
    /\ length (options q) = 3%nat.
Proof.
  unfold parse_block.
  pose proof (block_lines_nonempty block) as Hne.
  set (lines := block_lines block) in *.
  destruct (Nat.ltb_spec (length lines) 4) as [|Hlen]; [done|].
  destruct (questionLineIndex_window _ Hlen) as (Hle & _ & Hbefore).
  set (qi := questionLineIndex lines) in *.
  destruct (length lines <=? qi)%nat; [done|].
  destruct (lines !! qi) as [l|] eqn:Hl; [|done].
  destruct (match_re re_question l) as [[segs rest]|] eqn:Hm; [|done].
  assert (test re_question l = true) as Htest by (unfold test; by rewrite Hm).
  apply match_re_sound in Hm as [Hcat Hall].
  unfold re_question in Hall.
  apply Forall2_cons_inv_l in Hall as (d & segs1 & Hd & Hall & ->).
  apply Forall2_cons_inv_l in Hall as (w & segs2 & Hw & Hall & ->).
  apply Forall2_cons_inv_l in Hall as (p & segs3 & Hp & Hall & ->).
  apply Forall2_nil_inv_l in Hall as ->.
  destruct Hd as (Hd & Hdlen & _). destruct Hw as (Hw & _ & _).
  destruct Hp as (Hp & Hp1 & Hp2). specialize (Hp2 1%nat eq_refl).
  cbn in Hd, Hdlen, Hw, Hp, Hp1.
  destruct p as [|c [|c' p]]; cbn in Hp1, Hp2; [lia | | lia].
  apply Forall_cons_1 in Hp as [Hc%N.eqb_eq _]. subst c.
  cbn in Hcat. rewrite <- !app_assoc in Hcat. cbn [app] in Hcat.
  assert (d <> []) as Hdne by (intros ->; cbn in Hdlen; lia).
  rewrite (filter_Forall_id _ (drop (S qi) lines))
    by by apply Forall_drop.
  destruct (length (take 3 (drop (S qi) lines)) =? 3)%nat eqn:Hthree;
    [|done].
  apply Nat.eqb_eq in Hthree.
  intros [= <-]. cbn [q_id q_text options].
  exists qi, l, d, w, rest.
  split_and!; try done.
  - cbn [head default]. rewrite Hcat.
    rewrite replace_prefix by done. apply trim_trimStart.
  - by rewrite length_imap.
Qed.

Lemma parse_block_question_line_witness :
  exists i l digits ws rest,
    (i <= 3)%nat
    /\ block_lines late_question !! i = Some l
    /\ test re_question l = true
    /\ (forall j l', (j < i)%nat -> block_lines late_question !! j = Some l' ->
          test re_question l' = false)
    /\ l = digits ++ ws ++ 46%N :: rest
    /\ digits <> []
    /\ Forall (fun c => is_digit c = true) digits
    /\ Forall (fun c => is_space c = true) ws
    /\ Fin 4 = Number digits
    /\ units "Which way is up?" = trim rest
    /\ [ mkOption 0 (units "north") true;
         mkOption 1 (units "south") false;
         mkOption 2 (units "east") false ]
       = imap parse_option (take 3 (drop (S i) (block_lines late_question)))
    /\ 3%nat = 3%nat.
Proof.
  apply (parse_block_question_line late_question
           {| q_id := Fin 4;
              q_text := units "Which way is up?";
              options := [ mkOption 0 (units "north") true;
                           mkOption 1 (units "south") false;
                           mkOption 2 (units "east") false ] |}).
  vm_compute. reflexivity.
Defined.

(** ** Lines *)

Lemma elem_of_trimStart (c : N) (s : jsstring) : c ∈ trimStart s -> c ∈ s.
Proof.
  induction s as [|d s IH]; cbn [trimStart]; [done|].
  destruct (is_space d); [|done]. intros Hc. by apply elem_of_cons; right; auto.
Qed.

Lemma elem_of_trim (c : N) (s : jsstring) : c ∈ trim s -> c ∈ s.
Proof.
  unfold trim. rewrite elem_of_reverse. intros Hc%elem_of_trimStart.
  rewrite elem_of_reverse in Hc. by apply elem_of_trimStart.
Qed.

Lemma match_newline_at_LF (s : jsstring) :
  match_re re_newline (LF :: s) = Some ([[]; [LF]], s).
Proof.
  apply match_re_greedy. cbn. by rewrite greedy_none.
Qed.

Lemma match_newline_nonempty (s : jsstring) segs rest :
  match_re re_newline s = Some (segs, rest) -> length (concat segs) <> 0%nat.
Proof.
  intros [_ Hall]%match_re_sound. unfold re_newline in Hall.
  apply Forall2_cons_inv_l in Hall as (a & segs1 & _ & Hall & ->).
  apply Forall2_cons_inv_l in Hall as (b & segs2 & Hb & Hall & ->).
  apply Forall2_nil_inv_l in Hall as ->.
  destruct Hb as (_ & Hlen & _). cbn in Hlen. cbn.
  rewrite !length_app. cbn. lia.
Qed.

(** No piece of a split at line breaks holds a line feed. *)
Lemma split_newline_no_LF (s : jsstring) : forall skip cur,
  LF ∉ cur -> Forall (fun piece => LF ∉ piece) (split_go re_newline s skip cur).
Proof.
  induction s as [|c s IH]; intros skip cur Hcur; cbn [split_go].
  - constructor; [|constructor]. by rewrite elem_of_reverse.
  - destruct skip as [|k]; [|by apply IH].
    destruct (match_re re_newline (c :: s)) as [[segs rest]|] eqn:Hm.
    + apply match_newline_nonempty in Hm.
      destruct (length (concat segs)) as [|k]; [done|].
      constructor; [by rewrite elem_of_reverse|]. apply IH.
      by intros ?%elem_of_nil.
    + apply IH. intros [Heq|Hin]%elem_of_cons; [subst c|done].
      by rewrite match_newline_at_LF in Hm.
Qed.

(** Every line that the parser looks at is non-empty, has no blank at
    either end and holds no line feed; every block is non-empty and has no
    blank at either end. *)
Theorem lines_clean (raw block l : jsstring) :
  block ∈ blocks_of raw ->
  l ∈ block_lines block ->
  (block <> [] /\ no_leading_space block
   /\ no_leading_space (reverse block))
  /\ l <> [] /\ no_leading_space l /\ no_leading_space (reverse l)
  /\ LF ∉ l.
Proof.
  unfold blocks_of, block_lines.
  intros [Hb (b0 & -> & _)%list_elem_of_fmap]%list_elem_of_filter.
  intros [Hl (l0 & -> & Hl0)%list_elem_of_fmap]%list_elem_of_filter.
  split_and!.
  - by destruct (trim b0).
  - apply trim_no_space.
  - apply trim_no_space.
  - by destruct (trim l0).
  - apply trim_no_space.
  - apply trim_no_space.
  - intros Hin%elem_of_trim.
    assert (Forall (fun piece => LF ∉ piece) (split re_newline (trim b0)))
      as Hall.
    { unfold split. destruct (trim b0) as [|c s] eqn:Hs.
      - destruct (test re_newline []); constructor; [|constructor].
        by intros ?%elem_of_nil.
      - apply split_newline_no_LF. by intros ?%elem_of_nil. }
    rewrite Forall_forall in Hall. by apply (Hall l0).
Qed.

Lemma lines_clean_witness :
  units "* blue" <> [] /\ LF ∉ units "* blue".
Proof.
  destruct (lines_clean sky
              (units "12. What color is the sky?" ++ [LF] ++ units "* blue"
               ++ [LF] ++ units "red" ++ [LF] ++ units "green" ++ [LF]
               ++ replicate 35 95%N)
              (units "* blue"))
    as (_ & Hne & _ & _ & Hlf).
  - vm_compute. apply list_elem_of_here.
  - vm_compute. apply list_elem_of_further, list_elem_of_here.
  - by split.
Defined.

(** ** Deduplication *)

Lemma dedupe_sublist (qs : list Question) :
  forall seen, sublist (dedupe seen qs) qs.
Proof.
  induction qs as [|q qs IH]; intros seen; cbn [dedupe]; [constructor|].
  case_decide; [apply sublist_cons | apply sublist_skip]; apply IH.
Qed.

Lemma dedupe_fresh (qs : list Question) :
  forall seen q, q ∈ dedupe seen qs -> q_id q ∉ seen.
Proof.
  induction qs as [|q0 qs IH]; intros seen q; cbn [dedupe].
  - by intros ?%elem_of_nil.
  - case_decide as Hin; [apply IH|].
    intros [->|Hq]%elem_of_cons; [done|].
    apply IH in Hq. intros Hs. apply Hq, elem_of_union_r, Hs.
Qed.

Lemma dedupe_NoDup (qs : list Question) :
  forall seen, NoDup (q_id <$> dedupe seen qs).
Proof.
  induction qs as [|q0 qs IH]; intros seen; cbn [dedupe]; [constructor|].
  case_decide as Hin; [apply IH|].
  rewrite fmap_cons. constructor; [|apply IH].
  intros (q & Hid & Hq)%list_elem_of_fmap. apply dedupe_fresh in Hq.
  apply Hq, elem_of_union_l, elem_of_singleton. done.
Qed.

Lemma dedupe_keeps_ids (qs : list Question) :
  forall seen q, q ∈ qs -> q_id q ∉ seen ->
    exists q', q' ∈ dedupe seen qs /\ q_id q' = q_id q.
Proof.
  induction qs as [|q0 qs IH]; intros seen q; cbn [dedupe].
  - by intros ?%elem_of_nil.
  - intros [->|Hq]%elem_of_cons Hfresh.
    + rewrite decide_False by done. exists q0.
      split; [apply list_elem_of_here | done].
    + case_decide as Hin; [by apply IH|].
      destruct (decide (q_id q = q_id q0)) as [Heq|Hne].
      * exists q0. split; [apply list_elem_of_here | done].
      * destruct (IH ({[q_id q0]} ∪ seen) q Hq) as (q' & Hq' & Hid).
        { intros [Hs%elem_of_singleton|Hs]%elem_of_union; done. }
        exists q'. split; [by apply list_elem_of_further | done].
Qed.

(** The output keeps the questions in the order of their blocks, has no
    two questions with the same id, and has a question for every id that
    some block gives. *)
Theorem parse_order_ids (raw : jsstring) :
  sublist (parseQuestions raw) (parsed_questions raw)
  /\ NoDup (q_id <$> parseQuestions raw)
  /\ (forall block q,
        block ∈ blocks_of raw -> parse_block block = Some q ->
        exists q', q' ∈ parseQuestions raw /\ q_id q' = q_id q).
Proof.
  unfold parseQuestions. split_and!.
  - apply dedupe_sublist.
  - apply dedupe_NoDup.
  - intros block q Hb Hq. apply dedupe_keeps_ids; [|apply not_elem_of_empty].
    unfold parsed_questions. apply list_elem_of_omap. eauto.
Qed.

Lemma parse_block_fields (block : jsstring) (q : Question) :
  parse_block block = Some q ->
  opt_id <$> options q = [0; 1; 2]%nat
  /\ exists s, q_text q = trim s.
Proof.
  unfold parse_block.
  destruct (length (block_lines block) <? 4)%nat; [done|].
  destruct (length (block_lines block) <=? _)%nat; [done|].
  destruct (block_lines block !! _) as [l|]; [|done].
  destruct (match_re re_question l) as [[segs rest]|]; [|done].
  destruct (take 3 _) as [|l1 [|l2 [|l3 [|l4 tl]]]]; cbn [length Nat.eqb];
    try done.
  intros [= <-]. cbn. eauto.
Qed.

(** Every question of the output is the question of some block: it has
    exactly three options, numbered 0, 1, 2, and its text has no blank at
    either end. *)
Theorem parsed_question_wellformed (raw : jsstring) (q : Question) :
  q ∈ parseQuestions raw ->
  (exists block, block ∈ blocks_of raw /\ parse_block block = Some q)
  /\ opt_id <$> options q = [0; 1; 2]%nat
  /\ no_leading_space (q_text q)
  /\ no_leading_space (reverse (q_text q)).
Proof.
  intros Hq.
  assert (q ∈ parsed_questions raw) as Hp.
  { eapply elem_of_sublist; [exact Hq | apply dedupe_sublist]. }
  apply list_elem_of_omap in Hp as (block & Hb & Hparse).
  split; [eauto|].
  destruct (parse_block_fields _ _ Hparse) as (Hopt & s & Ht).
  split; [done|]. rewrite Ht. apply trim_no_space.
Qed.

Lemma parsed_question_wellformed_witness :
  opt_id <$> options sky_question = [0; 1; 2]%nat
  /\ no_leading_space (q_text sky_question).
Proof.
  destruct (parsed_question_wellformed sky sky_question) as (_ & Hopt & Ht & _);
    [|by split].
  vm_compute. apply list_elem_of_here.
Defined.

End ParserShape.

(** * More on the session engine *)

Section EngineMore.

Implicit Types (allQuestions questions : list Question).
Implicit Types (states m : gmap number SessionQuestionState).
Implicit Types (st : App) (q : Question) (r : SessionQuestionState).

(** ** The shuffle *)

Lemma insert_swap_head {A} (l : list A) (j : nat) (x b : A) :
  l !! j = Some b -> b :: <[j := x]> l ≡ₚ x :: l.
Proof.
  revert j. induction l as [|y l IH]; intros [|j] Hj; simplify_eq/=.
  - apply perm_swap.
  - rewrite (perm_swap y b), (IH j Hj). apply perm_swap.
Qed.

Lemma insert_insert_Permutation {A} (l : list A) (i j : nat) (a b : A) :
  l !! i = Some a -> l !! j = Some b -> <[j := a]> (<[i := b]> l) ≡ₚ l.
Proof.
  revert i j. induction l as [|x l IH]; intros [|i] [|j] Ha Hb;
    simplify_eq/=.
  - done.
  - by apply insert_swap_head.
  - by apply insert_swap_head.
  - by rewrite (IH i j).
Qed.

Lemma swap_Permutation {A} (l : list A) (i j : nat) : swap l i j ≡ₚ l.
Proof.
  unfold swap.
  destruct (l !! i) as [a|] eqn:Ha; [|done].
  destruct (l !! j) as [b|] eqn:Hb; [|done].
  by apply insert_insert_Permutation.
Qed.

Lemma shuffle_from_Permutation {A} (draws : nat -> nat) (i : nat) :
  forall l : list A, shuffle_from draws i l ≡ₚ l.
Proof.
  induction i as [|i IH]; intros l; cbn [shuffle_from]; [done|].
  by rewrite IH, swap_Permutation.
Qed.

(** The shuffle gives the options of the question in another order: none
    is lost, none is shown twice, and each keeps its text and its
    [isCorrect] flag. *)
Theorem shuffle_Permutation {A} (draws : nat -> nat) (l : list A) :
  shuffle draws l ≡ₚ l
  /\ length (shuffle draws l) = length l
  /\ (forall x, x ∈ shuffle draws l <-> x ∈ l).
Proof.
  assert (shuffle draws l ≡ₚ l) as Hperm
    by (unfold shuffle; apply shuffle_from_Permutation).
  split_and!; [done | by rewrite Hperm | intros x; by rewrite Hperm].
Qed.

(** In a state that the handlers reach, the options on the screen are the
    options of the current question in some order, and there is none
    without a current question. *)
Theorem displayed_of_current allQuestions st :
  reachable allQuestions st ->
  match currentQuestion allQuestions (session st) with
  | Some q => displayedOptions st ≡ₚ options q
  | None => displayedOptions st = []
  end.
Proof.
  intros Hshown%reachable_displayed. unfold displayed_ok in Hshown.
  destruct (currentQuestion allQuestions (session st)) as [q|]; [|done].
  destruct Hshown as [draws ->]. unfold shuffle.
  apply shuffle_from_Permutation.
Qed.

Lemma displayed_of_current_witness :
  displayedOptions after_five ≡ₚ options question_one.
Proof.
  assert (reachable bank12 after_five) as Hreach.
  { apply (reachable_run bank12 (fun i => i) five_correct (initial bank12));
      [apply reachable_initial | vm_compute; reflexivity]. }
  pose proof (displayed_of_current bank12 after_five Hreach) as Hshown.
  assert (currentQuestion bank12 (session after_five) = Some question_one)
    as Hq by (vm_compute; reflexivity).
  rewrite Hq in Hshown. exact Hshown.
Defined.

Lemma filter_one_index {A} (P : A -> Prop) `{!forall x, Decision (P x)}
    (l : list A) :
  length (filter P l) = 1%nat ->
  exists i x, l !! i = Some x /\ P x
    /\ forall j y, l !! j = Some y -> P y -> j = i.
Proof.
  induction l as [|a l IH]; [done|].
  rewrite filter_cons. destruct (decide (P a)) as [Ha|Ha]; cbn [length].
  - intros [= Hnil%nil_length_inv]. exists 0%nat, a. split_and!; [done..|].
    intros [|j] y Hj Hy; [done|]. cbn in Hj.
    assert (y ∈ filter P l) as Hin.
    { apply list_elem_of_filter. split; [done|].
      by eapply list_elem_of_lookup_2. }
    rewrite Hnil in Hin. by apply elem_of_nil in Hin.
  - intros (i & x & Hi & Hx & Huniq)%IH. exists (S i), x.
    split_and!; [done..|].
    intros [|j] y Hj Hy; [cbn in Hj; congruence|].
    f_equal. by eapply Huniq.
Qed.

(** When the current question has exactly one correct option, exactly one
    index of the screen is scored as correct, whatever the shuffle. *)
Theorem one_correct_index allQuestions st q :
  reachable allQuestions st ->
  currentQuestion allQuestions (session st) = Some q ->
  length (filter (fun o => isCorrect o = true) (options q)) = 1%nat ->
  exists idx,
    (idx < length (options q))%nat
    /\ chosenIsCorrect st idx = true
    /\ forall idx', chosenIsCorrect st idx' = true -> idx' = idx.
Proof.
  intros Hshown%reachable_displayed Hq Hone. unfold displayed_ok in Hshown.
  rewrite Hq in Hshown. destruct Hshown as [draws Hshown].
  assert (displayedOptions st ≡ₚ options q) as Hperm
    by (rewrite Hshown; unfold shuffle; apply shuffle_from_Permutation).
  rewrite <- Hperm in Hone.
  apply filter_one_index in Hone as (idx & o & Hidx & Ho & Huniq).
  exists idx. split_and!.
  - rewrite <- Hperm. by eapply lookup_lt_Some.
  - unfold chosenIsCorrect. by rewrite Hidx.
  - intros idx'. unfold chosenIsCorrect.
    destruct (displayedOptions st !! idx') as [o'|] eqn:Ho'; [|done].
    intros Hc. by eapply Huniq.
Qed.

Lemma one_correct_index_witness :
  exists idx,
    (idx < 3)%nat
    /\ chosenIsCorrect after_five idx = true
    /\ forall idx', chosenIsCorrect after_five idx' = true -> idx' = idx.
Proof.
  apply (one_correct_index bank12 after_five question_one).
  - apply (reachable_run bank12 (fun i => i) five_correct (initial bank12));
      [apply reachable_initial | vm_compute; reflexivity].
  - vm_compute. reflexivity.
  - vm_compute. reflexivity.
Defined.

(** ** The records of the bank *)

Lemma initializeStates_fold allQuestions (prev : SessionState) :
  questionStates (initializeStates allQuestions prev)
  = foldl ensureRecord (questionStates prev) allQuestions.
Proof.
  unfold initializeStates. by destruct allQuestions.
Qed.

Lemma ensureRecord_keeps m q i r :
  m !! i = Some r -> ensureRecord m q !! i = Some r.
Proof.
  intros Hi. unfold ensureRecord.
  destruct (m !! q_id q) eqn:Hq; [done|].
  rewrite lookup_insert_ne; [done|]. congruence.
Qed.

Lemma fold_keeps questions : forall m i r,
  m !! i = Some r -> foldl ensureRecord m questions !! i = Some r.
Proof.
  induction questions as [|q qs IH]; intros m i r Hi; [done|].
  cbn [foldl]. by apply IH, ensureRecord_keeps.
Qed.

Lemma fold_covers questions : forall m q,
  q ∈ questions -> is_Some (foldl ensureRecord m questions !! q_id q).
Proof.
  induction questions as [|q0 qs IH]; intros m q; [by intros ?%elem_of_nil|].
  cbn [foldl]. intros [->|Hq]%elem_of_cons; [|by apply IH].
  assert (is_Some (ensureRecord m q0 !! q_id q0)) as [r Hr].
  { unfold ensureRecord. destruct (m !! q_id q0) eqn:Hq; [by rewrite Hq|].
    rewrite lookup_insert_eq. eauto. }
  exists r. by apply fold_keeps.
Qed.

Lemma fold_origin questions : forall m i r,
  foldl ensureRecord m questions !! i = Some r ->
  m !! i = Some r
  \/ (m !! i = None
      /\ exists q, q ∈ questions /\ q_id q = i /\ r = freshRecord q).
Proof.
  induction questions as [|q0 qs IH]; intros m i r Hi; [by left|].
  cbn [foldl] in Hi. apply IH in Hi as [Hi|(Hi & q & Hq & Hid & ->)].
  - unfold ensureRecord in Hi. destruct (m !! q_id q0) eqn:Hq0; [by left|].
    destruct (decide (q_id q0 = i)) as [<-|Hne].
    + rewrite lookup_insert_eq in Hi. injection Hi as <-. right.
      split; [done|]. exists q0. split; [apply list_elem_of_here | done].
    + rewrite lookup_insert_ne in Hi by done. by left.
  - right. split.
    + unfold ensureRecord in Hi. destruct (m !! q_id q0) eqn:Hq0; [done|].
      destruct (decide (q_id q0 = i)) as [<-|Hne];
        [by rewrite lookup_insert_eq in Hi|].
      by rewrite lookup_insert_ne in Hi.
    + exists q. split; [by apply list_elem_of_further | done].
Qed.

Lemma fold_complete questions : forall m,
  (forall q, q ∈ questions -> is_Some (m !! q_id q)) ->
  foldl ensureRecord m questions = m.
Proof.
  induction questions as [|q0 qs IH]; intros m Hall; [done|].
  cbn [foldl]. assert (ensureRecord m q0 = m) as ->.
  { unfold ensureRecord.
    by destruct (Hall q0 (list_elem_of_here _ _)) as [r ->]. }
  apply IH. intros q Hq. by apply Hall, list_elem_of_further.
Qed.

(** The effect that follows the load of the bank keeps [currentQuestionId]
    and every record it finds, gives every question of the bank a record,
    creates only fresh records for questions of the bank that had none,
    and changes nothing when it runs a second time. *)
Theorem initializeStates_records allQuestions (prev : SessionState) :
  currentQuestionId (initializeStates allQuestions prev)
    = currentQuestionId prev
  /\ (forall i r, questionStates prev !! i = Some r ->
        questionStates (initializeStates allQuestions prev) !! i = Some r)
  /\ (forall q, q ∈ allQuestions ->
        is_Some (questionStates (initializeStates allQuestions prev)
                   !! q_id q))
  /\ (forall i r,
        questionStates (initializeStates allQuestions prev) !! i = Some r ->
        questionStates prev !! i = Some r
        \/ (questionStates prev !! i = None
            /\ exists q, q ∈ allQuestions /\ q_id q = i
                 /\ r = freshRecord q))
  /\ initializeStates allQuestions (initializeStates allQuestions prev)
     = initializeStates allQuestions prev.
Proof.
  split_and!.
  - unfold initializeStates. by destruct (length allQuestions =? 0)%nat.
  - intros i r. rewrite initializeStates_fold. apply fold_keeps.
  - intros q. rewrite initializeStates_fold. apply fold_covers.
  - intros i r. rewrite initializeStates_fold. apply fold_origin.
  - pose proof (initializeStates_fold allQuestions
                  (initializeStates allQuestions prev)) as Hfold.
    rewrite fold_complete in Hfold.
    2:{ intros q Hq. rewrite initializeStates_fold. by apply fold_covers. }
    unfold initializeStates in *.
    destruct (length allQuestions =? 0)%nat; [done|].
    cbn in *. by rewrite Hfold.
Qed.

Lemma initializeStates_records_witness :
  questionStates
    (initializeStates bank12
       {| questionStates := <[Fin 2 := mkQuestionState (Some (Fin 2)) 3 false]> ∅;
          currentQuestionId := Some (Fin 2) |}) !! Fin 2
  = Some (mkQuestionState (Some (Fin 2)) 3 false).
Proof.
  apply (initializeStates_records bank12). reflexivity.
Defined.

(** ** Counting the active records *)

Lemma activeCount_insert_None (s s' : SessionState) (k : number) r :
  questionStates s !! k = None ->
  questionStates s' = <[k := r]> (questionStates s) ->
  activeCount s' = (activeCount s + (if isExcluded r then 0 else 1))%nat.
Proof.
  intros Hk Hs'. unfold activeCount. rewrite Hs'.
  rewrite (Permutation_length
             (filter_Permutation _ _ _ (map_to_list_insert _ _ r Hk))).
  rewrite filter_cons. cbn [snd].
  destruct (isExcluded r); cbn [negb]; case_decide; try done; cbn; lia.
Qed.

Lemma activeCount_insert_Some (s s' : SessionState) (k : number) r r' :
  questionStates s !! k = Some r ->
  questionStates s' = <[k := r']> (questionStates s) ->
  (activeCount s' + (if isExcluded r then 0 else 1)
   = activeCount s + (if isExcluded r' then 0 else 1))%nat.
Proof.
  intros Hk Hs'.
  pose (s0 := {| questionStates := delete k (questionStates s);
                 currentQuestionId := None |}).
  assert (questionStates s0 !! k = None) as H0 by apply lookup_delete_eq.
  rewrite (activeCount_insert_None s0 s k r H0)
    by (cbn; by rewrite insert_delete_id).
  rewrite (activeCount_insert_None s0 s' k r' H0)
    by (cbn; by rewrite insert_delete_eq).
  lia.
Qed.

Lemma fold_count questions : forall m c,
  NoDup (q_id <$> questions) ->
  (forall q, q ∈ questions -> m !! q_id q = None) ->
  activeCount (mkSession (foldl ensureRecord m questions) c)
  = (activeCount (mkSession m c) + length questions)%nat.
Proof.
  induction questions as [|q qs IH]; intros m c Hnd Hnew; cbn [foldl length];
    [lia|].
  rewrite fmap_cons in Hnd. apply NoDup_cons in Hnd as [Hq Hnd].
  assert (m !! q_id q = None) as Hm by apply Hnew, list_elem_of_here.
  unfold ensureRecord at 2. rewrite Hm.
  rewrite (IH _ c Hnd).
  - rewrite (activeCount_insert_None (mkSession m c)
               (mkSession (<[q_id q := freshRecord q]> m) c) (q_id q)
               (freshRecord q) Hm eq_refl).
    cbn. lia.
  - intros q' Hq'. rewrite lookup_insert_ne.
    + by apply Hnew, list_elem_of_further.
    + intros Heq. apply Hq, list_elem_of_fmap. eauto.
Qed.

(** With the bank that the parser gives, the session starts with as many
    active records as there are questions and none completed; after a
    reset the page counts every question as completed. *)
Theorem initial_counts (raw : jsstring) (st : App) :
  activeCount (session (initial (parseQuestions raw)))
    = length (parseQuestions raw)
  /\ completedCount (parseQuestions raw)
       (session (initial (parseQuestions raw))) = 0
  /\ completedCount (parseQuestions raw) (session (handleReset st))
     = Z.of_nat (length (parseQuestions raw)).
Proof.
  assert (activeCount (session (initial (parseQuestions raw)))
          = length (parseQuestions raw)) as Hactive.
  { unfold initial. cbn [session].
    pose proof (initializeStates_fold (parseQuestions raw) freshSession)
      as Hfold.
    destruct (initializeStates (parseQuestions raw) freshSession)
      as [m c]. cbn in Hfold. subst m.
    rewrite fold_count; [done | apply dedupe_NoDup |].
    intros q _. apply lookup_empty. }
  split_and!; [done | unfold completedCount; rewrite Hactive; lia |].
  unfold completedCount.
  replace (activeCount (session (handleReset st))) with 0%nat by reflexivity.
  lia.
Qed.

Lemma records_of_bank_initial allQuestions :
  records_of_bank allQuestions
    (questionStates (session (initial allQuestions))).
Proof.
  unfold records_of_bank, initial. cbn [session].
  rewrite initializeStates_fold. cbn. apply set_eq. intros i.
  rewrite elem_of_dom, elem_of_list_to_set, list_elem_of_fmap. split.
  - intros [r [Hr|(_ & q & Hq & <- & _)]%fold_origin]; [done | eauto].
  - intros (q & -> & Hq). by apply fold_covers.
Qed.

Lemma records_of_bank_step allQuestions draws st e st' :
  records_of_bank allQuestions (questionStates (session st)) ->
  e <> Reset ->
  step allQuestions draws st e = Ok st' ->
  records_of_bank allQuestions (questionStates (session st')).
Proof.
  intros Hdom Hne. unfold step.
  destruct (handle allQuestions st e) as [st1|] eqn:Hh; [|done].
  intros [= <-]. cbn [rerender session].
  destruct e as [rnd|idx|rnd|rnd|]; cbn in Hh; [| | | |done].
  - by injection Hh as <-.
  - unfold handleAnswer in Hh.
    destruct (currentQuestion allQuestions (session st)) as [q|] eqn:Hq;
      [|by injection Hh as <-].
    destruct (hasAnswered st); [by injection Hh as <-|].
    destruct (answerRecord _ _) as [nextQs|]; [|done].
    injection Hh as <-. cbn. unfold records_of_bank in *.
    rewrite dom_insert_L, Hdom.
    apply currentQuestion_Some in Hq as [_ Hq].
    apply subseteq_union_1_L, singleton_subseteq_l.
    apply elem_of_list_to_set, list_elem_of_fmap. eauto.
  - injection Hh as <-. unfold handleNext.
    by destruct (currentQuestion allQuestions (session st)).
  - by injection Hh as <-.
Qed.

Lemma without_reset_run allQuestions draws es : forall st st',
  reachable_without_reset allQuestions st ->
  no_reset es ->
  run allQuestions draws st es = Ok st' ->
  reachable_without_reset allQuestions st'.
Proof.
  induction es as [|e es IH]; intros st st' Hreach Hnr; cbn [run].
  - by intros [= <-].
  - apply Forall_cons_1 in Hnr as [Hne Hnr].
    destruct (step allQuestions draws st e) as [st1|] eqn:Hstep; [|done].
    apply IH; [|done]. by eapply without_reset_step.
Qed.

Lemma without_reset_records allQuestions st :
  reachable_without_reset allQuestions st ->
  records_of_bank allQuestions (questionStates (session st)).
Proof.
  induction 1 as [|st e draws st' _ IH Hne Hstep];
    [apply records_of_bank_initial | by eapply records_of_bank_step].
Qed.

Lemma count_candidates questions : forall m c,
  NoDup (q_id <$> questions) ->
  records_of_bank questions m ->
  activeCount (mkSession m c) = length (candidates questions m).
Proof.
  unfold records_of_bank.
  induction questions as [|q qs IH]; intros m c Hnd Hdom.
  - cbn in Hdom. apply dom_empty_inv_L in Hdom as ->. done.
  - rewrite fmap_cons in Hnd, Hdom. apply NoDup_cons in Hnd as [Hq Hnd].
    rewrite list_to_set_cons in Hdom.
    assert (is_Some (m !! q_id q)) as [r Hr].
    { apply elem_of_dom. rewrite Hdom.
      apply elem_of_union_l, elem_of_singleton. done. }
    assert (q_id q ∉ (list_to_set (q_id <$> qs) : gset number)) as Hq'
      by by rewrite elem_of_list_to_set.
    rewrite (activeCount_insert_None
               (mkSession (delete (q_id q) m) c) (mkSession m c)
               (q_id q) r)
      by (cbn; first [apply lookup_delete_eq | by rewrite insert_delete_id]).
    rewrite (IH (delete (q_id q) m) c Hnd)
      by (rewrite dom_delete_L, Hdom, difference_union_distr_l_L,
            difference_diag_L, union_empty_l_L;
          by apply difference_disjoint_L, disjoint_singleton_r).
    assert (candidates qs m = candidates qs (delete (q_id q) m)) as Hcs.
    { unfold candidates. apply filter_ext_elem. intros q' Hq'in.
      unfold not_excluded. rewrite lookup_delete_ne; [done|].
      intros Heq. apply Hq, list_elem_of_fmap. eauto. }
    assert (not_excluded m q = negb (isExcluded r)) as Hne
      by (unfold not_excluded; by rewrite Hr).
    rewrite <- Hcs. unfold candidates at 2.
    destruct (isExcluded r); cbn [negb] in Hne.
    + rewrite filter_cons_False by (rewrite Hne; exact (fun x => x)).
      fold (candidates qs m). lia.
    + rewrite filter_cons_True by (rewrite Hne; exact I).
      fold (candidates qs m). cbn [length]. lia.
Qed.

(** Until a reset, the records are those of the bank (ids pairwise
    distinct): the count of active records is the number of questions
    that a draw can give, and the session counts as finished exactly when
    [pickNextQuestionId] returns null. *)
Theorem finished_iff_no_candidate allQuestions st :
  NoDup (q_id <$> allQuestions) ->
  reachable_without_reset allQuestions st ->
  records_of_bank allQuestions (questionStates (session st))
  /\ activeCount (session st)
     = length (candidates allQuestions (questionStates (session st)))
  /\ (isFinished (session st) = true <->
      forall rnd,
        pickNextQuestionId allQuestions (questionStates (session st)) rnd
        = None).
Proof.
  intros Hnd Hreach.
  pose proof (without_reset_records _ _ Hreach) as Hrec.
  assert (activeCount (session st)
          = length (candidates allQuestions (questionStates (session st))))
    as Hcount.
  { destruct (session st) as [m c] eqn:Hs. cbn in *.
    by apply count_candidates. }
  split_and!; [done | done |].
  unfold isFinished. rewrite Hcount, Nat.eqb_eq. split.
  - intros Hlen rnd. apply pickNext_None. by apply nil_length_inv.
  - intros Hnone. specialize (Hnone 0%nat). apply pickNext_None in Hnone.
    by rewrite Hnone.
Qed.

Lemma finished_iff_no_candidate_witness :
  activeCount (session after_five)
  = length (candidates bank12 (questionStates (session after_five))).
Proof.
  apply (finished_iff_no_candidate bank12 after_five).
  - cbn. apply NoDup_cons. split; [|apply NoDup_singleton].
    intros Hin%list_elem_of_singleton. discriminate.
  - apply (without_reset_run bank12 (fun i => i) five_correct
             (initial bank12));
      [apply without_reset_initial | | vm_compute; reflexivity].
    unfold no_reset, five_correct. repeat constructor; discriminate.
Defined.

(** ** The pool only shrinks *)

Lemma activeCount_states (s s' : SessionState) :
  questionStates s' = questionStates s -> activeCount s' = activeCount s.
Proof. unfold activeCount. by intros ->. Qed.

(** In a state that the handlers reach, a handler other than reset never
    raises the count of active records when the current question has a
    record; the count falls, by one, only with the answer that brings the
    streak of the current question to 5. *)
Theorem pool_shrinks allQuestions draws st e st' :
  reachable allQuestions st ->
  (forall q, currentQuestion allQuestions (session st) = Some q ->
     is_Some (questionStates (session st) !! q_id q)) ->
  e <> Reset ->
  step allQuestions draws st e = Ok st' ->
  activeCount (session st') = activeCount (session st)
  \/ (S (activeCount (session st')) = activeCount (session st)
      /\ exists idx q r',
           e = Answer idx
           /\ currentQuestion allQuestions (session st) = Some q
           /\ questionStates (session st') !! q_id q = Some r'
           /\ consecutiveCorrect r' = 5 /\ isExcluded r' = true).
Proof.
  intros Hreach Hrec Hne. unfold step.
  pose proof (reachable_engine_inv _ _ Hreach) as Hinv.
  destruct (handle allQuestions st e) as [st1|] eqn:Hh; [|done].
  intros [= <-]. cbn [rerender session].
  destruct e as [rnd|idx|rnd|rnd|]; cbn in Hh; [| | | |done].
  - injection Hh as <-. by left.
  - unfold handleAnswer in Hh.
    destruct (currentQuestion allQuestions (session st)) as [q|] eqn:Hq;
      [|injection Hh as <-; by left].
    destruct (hasAnswered st) eqn:Hans; [injection Hh as <-; by left|].
    destruct (Hrec q eq_refl) as [r Hr]. rewrite Hr in Hh.
    rewrite answerRecord_Some in Hh. injection Hh as <-. cbn [session].
    destruct Hinv as [Hok Hcur].
    assert (isExcluded r = false) as Hex.
    { destruct (isExcluded r) eqn:He; [|done].
      specialize (Hcur q r Hq Hr He). congruence. }
    destruct (Hok _ _ Hr) as [Hrange Hfive].
    match goal with
    | |- context [<[_ := ?n]> _] => set (nextQs := n)
    end.
    pose proof (activeCount_insert_Some (session st)
                  {| questionStates :=
                       <[q_id q := nextQs]> (questionStates (session st));
                     currentQuestionId := currentQuestionId (session st) |}
                  (q_id q) r nextQs Hr eq_refl) as Hcount.
    rewrite Hex in Hcount.
    destruct (isExcluded nextQs) eqn:Hnext.
    + right. split; [lia|]. exists idx, q, nextQs.
      split_and!; [done | done | apply lookup_insert_eq | | done].
      subst nextQs. cbn in Hnext |- *.
      destruct (chosenIsCorrect st idx); cbn in Hnext; [|done].
      rewrite js_add_exact in Hnext |- * by lia.
      apply Z.leb_le in Hnext.
      assert (consecutiveCorrect r <> 5) by (rewrite <- Hfive; congruence).
      lia.
    + left. lia.
  - injection Hh as <-. unfold handleNext.
    destruct (currentQuestion allQuestions (session st)); by left.
  - injection Hh as <-. by left.
Qed.

Lemma pool_shrinks_witness :
  S (activeCount (session after_five))
  = activeCount
      (session (match run bank12 (fun i => i) (initial bank12)
                        (take 17 five_correct) with
                | Ok st => st
                | TypeError => initial bank12
                end)).
Proof.
  pose (st := match run bank12 (fun i => i) (initial bank12)
                      (take 17 five_correct) with
              | Ok st => st
              | TypeError => initial bank12
              end).
  destruct (pool_shrinks bank12 (fun i => i) st (Answer 0) after_five)
    as [Heq|[Hlt _]].
  - apply (reachable_run bank12 (fun i => i) (take 17 five_correct)
             (initial bank12));
      [apply reachable_initial | vm_compute; reflexivity].
  - intros q Hq. vm_compute in Hq. injection Hq as <-. vm_compute. eauto.
  - discriminate.
  - vm_compute. reflexivity.
  - vm_compute in Heq. discriminate.
  - exact Hlt.
Defined.

(** ** Statistics *)

(** One step of a counter below its top. *)
Lemma js_add_counter (x y : Z) :
  0 <= x <= 2 ^ 53 ->
  0 <= y <= 1 ->
  x <= js_add x y <= x + y
  /\ js_add x y <= 2 ^ 53
  /\ (x < 2 ^ 53 -> js_add x y = x + y).
Proof.
  intros Hx Hy.
  destruct (decide (x = 2 ^ 53)) as [->|Hlt].
  - assert (y = 0 \/ y = 1) as [->| ->] by lia.
    + unfold js_add. cbn [Z.eqb]. lia.
    + rewrite js_add_top. lia.
  - rewrite js_add_exact by lia. lia.
Qed.

Lemma stats_step allQuestions draws st e st' :
  0 <= correctAnswers (stats st) <= totalAnswers (stats st) ->
  totalAnswers (stats st) <= 2 ^ 53 ->
  step allQuestions draws st e = Ok st' ->
  (e = Reset /\ stats st' = freshStats)
  \/ (e <> Reset
      /\ (0 <= correctAnswers (stats st') <= totalAnswers (stats st')
          /\ totalAnswers (stats st') <= 2 ^ 53)
      /\ totalAnswers (stats st) <= totalAnswers (stats st')
           <= totalAnswers (stats st) + 1
      /\ 0 <= correctAnswers (stats st') - correctAnswers (stats st) <= 1
      /\ (totalAnswers (stats st) < 2 ^ 53 ->
            correctAnswers (stats st') - correctAnswers (stats st)
            <= totalAnswers (stats st') - totalAnswers (stats st))).
Proof.
  intros Hc Ht. unfold step.
  destruct (handle allQuestions st e) as [st1|] eqn:Hh; [|done].
  intros [= <-]. cbn [rerender stats].
  destruct e as [rnd|idx|rnd|rnd|]; cbn in Hh.
  - injection Hh as <-. right. cbn. split; [done|lia].
  - right. split; [done|]. unfold handleAnswer in Hh.
    destruct (currentQuestion allQuestions (session st));
      [|injection Hh as <-; lia].
    destruct (hasAnswered st); [injection Hh as <-; lia|].
    destruct (answerRecord _ _); [|done]. injection Hh as <-. cbn.
    pose proof (js_add_counter (totalAnswers (stats st)) 1
                  ltac:(lia) ltac:(lia)) as (Ht1 & Ht2 & Ht3).
    pose proof (js_add_counter (correctAnswers (stats st))
                  (if chosenIsCorrect st idx then 1 else 0)
                  ltac:(lia) ltac:(destruct (chosenIsCorrect st idx); lia))
      as (Hc1 & Hc2 & Hc3).
    destruct (decide (totalAnswers (stats st) = 2 ^ 53)) as [Htop|Hlow].
    + rewrite Htop in *. rewrite js_add_top in *.
      destruct (chosenIsCorrect st idx); lia.
    + rewrite Ht3 in * by lia. rewrite Hc3 in * by lia.
      destruct (chosenIsCorrect st idx); lia.
  - injection Hh as <-. right. split; [done|]. unfold handleNext.
    destruct (currentQuestion allQuestions (session st)); cbn; lia.
  - injection Hh as <-. right. cbn. split; [done|lia].
  - injection Hh as <-. by left.
Qed.

Lemma reachable_stats_range allQuestions st :
  reachable allQuestions st ->
  0 <= correctAnswers (stats st) <= totalAnswers (stats st)
  /\ totalAnswers (stats st) <= 2 ^ 53.
Proof.
  induction 1 as [|st e draws st' _ [IHc IHt] Hstep]; [cbn; lia|].
  apply stats_step in Hstep as [[_ ->]|(_ & ? & _)]; [cbn; lia | done..].
Qed.

(** In a state that the handlers reach, the correct answers are counted
    among the answers, and the counters stay within 2^53:
    0 <= correctAnswers <= totalAnswers <= 2^53; a handler other than reset
    never lowers a counter and adds at most one to each, and below 2^53
    answers a correct answer is counted only with an answer. *)
Theorem reachable_stats allQuestions st :
  reachable allQuestions st ->
  (0 <= correctAnswers (stats st) <= totalAnswers (stats st)
   /\ totalAnswers (stats st) <= 2 ^ 53)
  /\ forall draws e st',
       e <> Reset ->
       step allQuestions draws st e = Ok st' ->
       totalAnswers (stats st) <= totalAnswers (stats st')
         <= totalAnswers (stats st) + 1
       /\ 0 <= correctAnswers (stats st') - correctAnswers (stats st) <= 1
       /\ (totalAnswers (stats st) < 2 ^ 53 ->
             correctAnswers (stats st') - correctAnswers (stats st)
             <= totalAnswers (stats st') - totalAnswers (stats st)).
Proof.
  intros Hreach.
  pose proof (reachable_stats_range _ _ Hreach) as [Hc Ht].
  split; [done|].
  intros draws e st' Hne Hstep.
  apply stats_step in Hstep as [[-> _]|(_ & _ & ? & ? & ?)]; done.
Qed.

Lemma reachable_stats_witness :
  (0 <= correctAnswers (stats one_shown) <= totalAnswers (stats one_shown)
   /\ totalAnswers (stats one_shown) <= 2 ^ 53)
  /\ totalAnswers (stats one_shown) <= totalAnswers (stats one_answered)
       <= totalAnswers (stats one_shown) + 1
  /\ 0 <= correctAnswers (stats one_answered)
            - correctAnswers (stats one_shown) <= 1
  /\ correctAnswers (stats one_answered) - correctAnswers (stats one_shown)
     <= totalAnswers (stats one_answered) - totalAnswers (stats one_shown).
Proof.
  assert (reachable bank12 one_shown) as Hreach.
  { apply (reachable_run bank12 (fun i => i) [Start 0] (initial bank12));
      [apply reachable_initial | vm_compute; reflexivity]. }
  destruct (reachable_stats bank12 one_shown Hreach) as [Hbounds Hstep].
  split; [exact Hbounds|].
  destruct (Hstep (fun i => i) (Answer 0) one_answered)
    as (Htotal & Hcorrect & Hboth);
    [discriminate | vm_compute; reflexivity |].
  split_and!; [apply Htotal | apply Htotal | apply Hcorrect | apply Hcorrect |].
  apply Hboth. vm_compute. reflexivity.
Defined.

(** ** The current question *)

Lemma find_by_id questions q :
  q ∈ questions ->
  exists q',
    List.find (fun q0 => bool_decide (q_id q0 = q_id q)) questions = Some q'
    /\ q' ∈ questions /\ q_id q' = q_id q.
Proof.
  intros Hq.
  destruct (List.find _ questions) as [q'|] eqn:Hfind.
  - apply find_some in Hfind as [Hin Hid%bool_decide_eq_true].
    exists q'. split_and!; [done | by apply list_elem_of_In | done].
  - apply list_elem_of_In in Hq.
    pose proof (find_none _ _ Hfind q Hq) as Hno. cbn in Hno.
    by rewrite bool_decide_eq_false in Hno.
Qed.

(** In a state that the handlers reach, a current id is the id of a
    question of the bank: the page has a question to show for it. *)
Theorem reachable_current_in_bank allQuestions st i :
  reachable allQuestions st ->
  currentQuestionId (session st) = Some i ->
  exists q, currentQuestion allQuestions (session st) = Some q
    /\ q ∈ allQuestions /\ q_id q = i.
Proof.
  intros Hreach Hi.
  assert (exists q, q ∈ allQuestions /\ q_id q = i) as (q & Hq & <-).
  { revert i Hi. induction Hreach as [|st e draws st' _ IH Hstep];
      intros i Hi.
    - unfold initial, initializeStates in Hi. cbn in Hi.
      by destruct (length allQuestions =? 0)%nat.
    - unfold step in Hstep.
      destruct (handle allQuestions st e) as [st1|] eqn:Hh; [|done].
      injection Hstep as <-. cbn [rerender session] in Hi.
      assert (forall rnd,
                currentQuestionId (session (advance allQuestions st rnd))
                = Some i ->
                exists q, q ∈ allQuestions /\ q_id q = i) as Hadv.
      { intros rnd Hp. cbn in Hp.
        apply pickNext_Some in Hp as (q & [Hq _]%elem_of_candidates & <-).
        eauto. }
      destruct e as [rnd|idx|rnd|rnd|]; cbn in Hh.
      + injection Hh as <-. by eapply Hadv.
      + apply IH. unfold handleAnswer in Hh.
        destruct (currentQuestion allQuestions (session st));
          [|by injection Hh as <-].
        destruct (hasAnswered st); [by injection Hh as <-|].
        destruct (answerRecord _ _); [|done]. by injection Hh as <-.
      + injection Hh as <-. unfold handleNext in Hi.
        destruct (currentQuestion allQuestions (session st));
          [by eapply Hadv | by apply IH].
      + injection Hh as <-. by eapply Hadv.
      + by injection Hh as <-. }
  unfold currentQuestion. rewrite Hi.
  destruct (find_by_id _ _ Hq) as (q' & Hfind & Hin & Hid). eauto.
Qed.

Lemma reachable_current_in_bank_witness :
  exists q, currentQuestion bank12 (session after_five) = Some q
    /\ q ∈ bank12 /\ q_id q = Fin 1.
Proof.
  apply (reachable_current_in_bank bank12 after_five).
  - apply (reachable_run bank12 (fun i => i) five_correct (initial bank12));
      [apply reachable_initial | vm_compute; reflexivity].
  - vm_compute. reflexivity.
Defined.

(** The streak shown for the current question lies between 0 and 5 in a
    state that the handlers reach, and below 5 while the presentation is
    not answered. *)
Theorem reachable_currentStreak allQuestions st :
  reachable allQuestions st ->
  0 <= currentStreak allQuestions (session st) <= 5
  /\ (hasAnswered st = false ->
        currentStreak allQuestions (session st) < 5).
Proof.
  intros Hinv%reachable_engine_inv. unfold currentStreak.
  destruct (currentQuestion allQuestions (session st)) as [q|] eqn:Hq;
    [|split; [lia | intros; lia]].
  destruct (questionStates (session st) !! q_id q) as [r|] eqn:Hr;
    [|split; [lia | intros; lia]].
  destruct Hinv as [Hok Hcur].
  destruct (Hok _ _ Hr) as [Hrange Hfive]. split; [done|].
  intros Hans.
  assert (consecutiveCorrect r <> 5); [|lia].
  intros H5. apply Hfive in H5. specialize (Hcur q r Hq Hr H5). congruence.
Qed.

Lemma reachable_currentStreak_witness :
  0 <= currentStreak bank12 (session after_five) <= 5.
Proof.
  assert (reachable bank12 after_five) as Hreach.
  { apply (reachable_run bank12 (fun i => i) five_correct (initial bank12));
      [apply reachable_initial | vm_compute; reflexivity]. }
  destruct (reachable_currentStreak bank12 after_five Hreach) as [Hbounds _].
  exact Hbounds.
Defined.

(** ** The last open question *)

Lemma last_open_advance allQuestions st rnd :
  last_open allQuestions st -> advance allQuestions st rnd = st.
Proof.
  intros (_ & _ & Hne & Hall). unfold advance.
  assert (pickNextQuestionId allQuestions (questionStates (session st)) rnd
          = currentQuestionId (session st)) as ->.
  { destruct (pickNextQuestionId _ _ rnd) as [i|] eqn:Hp.
    - apply pickNext_Some in Hp as (q & Hq & <-). symmetry. by apply Hall.
    - by apply pickNext_None in Hp. }
  by destruct st as [[] ? ? ? ?].
Qed.

Lemma last_open_step allQuestions draws st e :
  last_open allQuestions st -> e <> Reset ->
  step allQuestions draws st e = Ok st.
Proof.
  intros Hlast Hne. unfold step.
  assert (handle allQuestions st e = Ok st) as ->;
    [|by rewrite rerender_same].
  pose proof Hlast as (Hans & [q Hq] & _).
  destruct e as [rnd|idx|rnd|rnd|]; cbn; [| | | |done].
  - unfold handleStart. by rewrite last_open_advance.
  - unfold handleAnswer. by rewrite Hq, Hans.
  - unfold handleNext. by rewrite Hq, last_open_advance.
  - by rewrite last_open_advance.
Qed.

(** Once the current question is answered and is the only one that a draw
    can give, nothing but a reset changes the state: every draw gives the
    same id again, the effect on [currentQuestionId] does not run, so
    [hasAnswered] stays true and every further answer is ignored.  A bank
    of one question cannot be answered twice. *)
Theorem last_question_stuck allQuestions st :
  last_open allQuestions st ->
  (forall draws e, e <> Reset -> step allQuestions draws st e = Ok st)
  /\ (forall draws es, no_reset es -> run allQuestions draws st es = Ok st).
Proof.
  intros Hlast. split.
  - intros draws e Hne. by apply last_open_step.
  - intros draws es. induction 1 as [|e es Hne _ IH]; cbn [run]; [done|].
    by rewrite last_open_step.
Qed.

Lemma last_question_stuck_witness :
  run [sky_question] (fun i => i) answered_once
      [Next 0; Answer 0; Next 3; Answer 1; Start 2; Timer 1; Answer 0]
  = Ok answered_once.
Proof.
  apply (last_question_stuck [sky_question] answered_once).
  - split_and!.
    + reflexivity.
    + vm_compute. eauto.
    + vm_compute. discriminate.
    + intros q Hq. vm_compute in Hq.
      apply list_elem_of_singleton in Hq as ->. reflexivity.
  - repeat constructor; discriminate.
Defined.

End EngineMore.

(** * The clock *)

Section Clock.

Local Open Scope string_scope.

(** A number below 100 is shown with its two decimal digits. *)
Lemma padStart2_two_digits (n : Z) :
  0 <= n < 100 -> padStart2 (String_of n) = two_digits n.
Proof.
  intros Hn.
  assert (forallb (fun k => String.eqb (padStart2 (String_of (Z.of_nat k)))
                                       (two_digits (Z.of_nat k)))
                  (seq 0 100) = true) as Hall by (vm_compute; reflexivity).
  rewrite forallb_forall in Hall.
  specialize (Hall (Z.to_nat n)). rewrite Z2Nat.id in Hall by lia.
  apply String.eqb_eq, Hall, in_seq. lia.
Qed.

Lemma clock_parts (ms : Z) :
  0 <= ms < 360000000 ->
  clock_hh ms = ms / 1000 / 3600
  /\ clock_mm ms = ms / 1000 / 60 mod 60
  /\ clock_ss ms = ms / 1000 mod 60.
Proof.
  intros Hms. unfold clock_hh, clock_mm, clock_ss.
  rewrite !Z.rem_mod_nonneg by lia.
  Z.div_mod_to_equations. lia.
Qed.

(** Below 100 hours the clock reads HH:MM:SS: with s the whole seconds
    elapsed, the two decimal digits of the hours s / 3600 (not wrapped at
    24), of the minutes (s / 60) mod 60 and of the seconds s mod 60, with
    colons between them. *)
Theorem clock_format (ms : Z) :
  0 <= ms < 360000000 ->
  formatted ms
  = two_digits (ms / 1000 / 3600) ++ ":"
    ++ two_digits (ms / 1000 / 60 mod 60) ++ ":"
    ++ two_digits (ms / 1000 mod 60).
Proof.
  intros Hms. destruct (clock_parts ms Hms) as (Hh & Hm & Hs).
  unfold formatted. rewrite Hh, Hm, Hs.
  rewrite !padStart2_two_digits; [done|..];
    Z.div_mod_to_equations; lia.
Qed.

Lemma clock_format_witness : formatted 3725999 = "01:02:05".
Proof. rewrite (clock_format 3725999) by lia. reflexivity. Defined.

(** One hour, two minutes and five seconds; and a clock that was set back
    by a millisecond. *)
Example formatted_samples :
  formatted 3725999 = "01:02:05"
  /\ formatted 0 = "00:00:00"
  /\ formatted 360000000 = "100:00:00"
  /\ formatted (-1) = "-1:-1:-1".
Proof. vm_compute. done. Qed.

End Clock.
